(** * Spacebot control interface: live-state store and SSE client

    A shallow embedding of the TypeScript front end:

    - [interface/src/api/client.ts]: the wire types and the [useEventSource]
      hook (the stream client);
    - the dashboard component ([Dashboard]): the per-channel live state
      ([liveStates]), the history-loading effect, [pushMessage] and the three
      event handlers.

    React state updaters ([setLiveStates (prev => ...)]) are pure functions
    from the previous store to the next one; they are embedded as such and
    applied once each, one after the other, in the order in which the
    component queues them.  Every reading of the environment that the code performs
    ([Date.now()], [Math.random()], [new Date(s).getTime()], [JSON.parse]) is
    an explicit input of the embedding. *)

From Stdlib Require Import ZArith List Sorted Ascii.
From stdpp Require Import gmap strings list fin_maps sorting pretty.

Local Open Scope string_scope.
Local Open Scope list_scope.
Local Open Scope Z_scope.

(** ** Wire types ([api/client.ts]) *)

Module ChannelInfo.
Record t := mk {
  agent_id : string;
  id : string;
  platform : string;
  display_name : option string;
  is_active : bool;
  last_activity_at : string;
  created_at : string
}.
End ChannelInfo.

Module InboundMessageEvent.
Record t := mk {
  agent_id : string;
  channel_id : string;
  sender_id : string;
  text : string
}.
End InboundMessageEvent.

Module OutboundMessageEvent.
Record t := mk {
  agent_id : string;
  channel_id : string;
  text : string
}.
End OutboundMessageEvent.

Module TypingStateEvent.
Record t := mk {
  agent_id : string;
  channel_id : string;
  is_typing : bool
}.
End TypingStateEvent.

Module ConversationMessage.
Inductive Role := user | assistant.
Record t := mk {
  id : string;
  role : Role;
  sender_name : option string;
  sender_id : option string;
  content : string;
  created_at : string
}.
End ConversationMessage.

Module MessagesResponse.
Record t := mk { messages : list ConversationMessage.t }.
End MessagesResponse.

(** ** Dashboard types *)

Module ChatMessage.
Inductive Sender := user | bot.
Record t := mk {
  id : string;
  sender : Sender;
  senderName : option string;
  text : string;
  timestamp : Z
}.
End ChatMessage.

Module ChannelLiveState.
Record t := mk {
  isTyping : bool;
  messages : list ChatMessage.t;
  historyLoaded : bool
}.
End ChannelLiveState.

(** [Record<string, ChannelLiveState>] *)
Abbreviation LiveStates := (gmap string ChannelLiveState.t).

Definition VISIBLE_MESSAGES : nat := 6.
Definition MAX_MESSAGES : nat := 50.

(** [arr.slice(-n)] for a positive [n]: the last [n] elements, the whole
    array when it is shorter. *)
Definition slice_last {A} (n : nat) (arr : list A) : list A :=
  drop (length arr - n) arr.

(** The three reads the component performs through optional chaining:
    [s?.isTyping ?? false], [s?.messages ?? []] and [s?.historyLoaded]
    (used as a condition, or with [?? false]). *)
Definition isTypingOf (s : option ChannelLiveState.t) : bool :=
  default false (ChannelLiveState.isTyping <$> s).

Definition messagesOf (s : option ChannelLiveState.t) : list ChatMessage.t :=
  default [] (ChannelLiveState.messages <$> s).

Definition historyLoadedOf (s : option ChannelLiveState.t) : bool :=
  default false (ChannelLiveState.historyLoaded <$> s).

(** One call of [api.channelMessages(channelId, limit)]. *)
Record HistoryRequest := { req_channel : string; req_limit : nat }.

(** *** The history-loading effect, one channel of the loop

    The updater returns the next store; the fetch it starts on the way is
    returned next to it. *)
Definition loadHistory (channel : ChannelInfo.t) (prev : LiveStates)
  : LiveStates * option HistoryRequest :=
  let cid := ChannelInfo.id channel in
  if historyLoadedOf (prev !! cid) then (prev, None)
  else
    let updated :=
      <[cid := {| ChannelLiveState.isTyping := isTypingOf (prev !! cid);
                  ChannelLiveState.messages := messagesOf (prev !! cid);
                  ChannelLiveState.historyLoaded := true |}]> prev in
    (updated, Some {| req_channel := cid; req_limit := MAX_MESSAGES |}).

(** *** The merge callback that runs when the fetch resolves *)

(** [history.length > 0 ? history[history.length - 1].timestamp : 0]; the
    index is in range whenever the first branch is taken. *)
Definition lastHistoryTs (history : list ChatMessage.t) : Z :=
  if decide (0 < length history)%nat then
    match history !! (length history - 1)%nat with
    | Some m => ChatMessage.timestamp m
    | None => 0
    end
  else 0.

Definition newSseMessages (history sseMessages : list ChatMessage.t)
  : list ChatMessage.t :=
  filter (λ m, lastHistoryTs history < ChatMessage.timestamp m) sseMessages.

Definition mergedMessages (history sseMessages : list ChatMessage.t)
  : list ChatMessage.t :=
  slice_last MAX_MESSAGES (history ++ newSseMessages history sseMessages).

Definition mergeHistory (cid : string) (history : list ChatMessage.t)
    (current : LiveStates) : LiveStates :=
  match current !! cid with
  | None => current
  | Some existing =>
      <[cid := {| ChannelLiveState.isTyping := ChannelLiveState.isTyping existing;
                  ChannelLiveState.messages :=
                    mergedMessages history (ChannelLiveState.messages existing);
                  ChannelLiveState.historyLoaded :=
                    ChannelLiveState.historyLoaded existing |}]> current
  end.

(** *** [pushMessage] and the event handlers *)

Definition emptyLiveState : ChannelLiveState.t :=
  {| ChannelLiveState.isTyping := false;
     ChannelLiveState.messages := [];
     ChannelLiveState.historyLoaded := false |}.

Definition pushMessage (channelId : string) (message : ChatMessage.t)
    (prev : LiveStates) : LiveStates :=
  let existing := default emptyLiveState (prev !! channelId) in
  let messages :=
    slice_last MAX_MESSAGES (ChannelLiveState.messages existing ++ [message]) in
  <[channelId := {| ChannelLiveState.isTyping := ChannelLiveState.isTyping existing;
                    ChannelLiveState.messages := messages;
                    ChannelLiveState.historyLoaded :=
                      ChannelLiveState.historyLoaded existing |}]> prev.

(** What a handler reads from the environment while it builds a message:
    [Date.now()] inside the identity, [Math.random()] as the template
    literal prints it, and the second [Date.now()] for the timestamp. *)
Record Arrival := { id_now : Z; id_random : string; ts_now : Z }.

Definition liveId (prefix : string) (env : Arrival) : string :=
  prefix +:+ "-" +:+ pretty (id_now env) +:+ "-" +:+ id_random env.

Definition inboundChatMessage (event : InboundMessageEvent.t) (env : Arrival)
  : ChatMessage.t :=
  {| ChatMessage.id := liveId "in" env;
     ChatMessage.sender := ChatMessage.user;
     ChatMessage.senderName := Some (InboundMessageEvent.sender_id event);
     ChatMessage.text := InboundMessageEvent.text event;
     ChatMessage.timestamp := ts_now env |}.

Definition outboundChatMessage (event : OutboundMessageEvent.t) (env : Arrival)
  : ChatMessage.t :=
  {| ChatMessage.id := liveId "out" env;
     ChatMessage.sender := ChatMessage.bot;
     ChatMessage.senderName := None;
     ChatMessage.text := OutboundMessageEvent.text event;
     ChatMessage.timestamp := ts_now env |}.

Definition handleInboundMessage (event : InboundMessageEvent.t) (env : Arrival)
    (prev : LiveStates) : LiveStates :=
  pushMessage (InboundMessageEvent.channel_id event)
              (inboundChatMessage event env) prev.

(** The second updater of [handleOutboundMessage]. *)
Definition clearTyping (cid : string) (prev : LiveStates) : LiveStates :=
  <[cid := {| ChannelLiveState.isTyping := false;
              ChannelLiveState.messages := messagesOf (prev !! cid);
              ChannelLiveState.historyLoaded := historyLoadedOf (prev !! cid) |}]> prev.

Definition handleOutboundMessage (event : OutboundMessageEvent.t) (env : Arrival)
    (prev : LiveStates) : LiveStates :=
  let cid := OutboundMessageEvent.channel_id event in
  clearTyping cid (pushMessage cid (outboundChatMessage event env) prev).

Definition handleTypingState (event : TypingStateEvent.t) (prev : LiveStates)
  : LiveStates :=
  let cid := TypingStateEvent.channel_id event in
  <[cid := {| ChannelLiveState.isTyping := TypingStateEvent.is_typing event;
              ChannelLiveState.messages := messagesOf (prev !! cid);
              ChannelLiveState.historyLoaded := historyLoadedOf (prev !! cid) |}]> prev.

(** *** History rows as the component projects them

    [getTime] stands for [new Date(created_at).getTime()], taken on the
    integers (milliseconds since the epoch). *)
Section History.
Variable getTime : string → Z.

Definition toChatMessage (message : ConversationMessage.t) : ChatMessage.t :=
  {| ChatMessage.id := ConversationMessage.id message;
     ChatMessage.sender :=
       match ConversationMessage.role message with
       | ConversationMessage.user => ChatMessage.user
       | ConversationMessage.assistant => ChatMessage.bot
       end;
     ChatMessage.senderName :=
       match ConversationMessage.sender_name message with
       | Some name => Some name
       | None =>
           match ConversationMessage.role message with
           | ConversationMessage.user => ConversationMessage.sender_id message
           | ConversationMessage.assistant => None
           end
       end;
     ChatMessage.text := ConversationMessage.content message;
     ChatMessage.timestamp := getTime (ConversationMessage.created_at message) |}.

Definition toHistory (data : MessagesResponse.t) : list ChatMessage.t :=
  toChatMessage <$> MessagesResponse.messages data.

End History.

(** ** The dashboard as a transition system

    The store, every history request issued so far (oldest first) and the
    channels whose request has not settled yet. *)
Record Dashboard := {
  liveStates : LiveStates;
  requests : list HistoryRequest;
  pending : list string
}.

Definition initialDashboard : Dashboard :=
  {| liveStates := ∅; requests := []; pending := [] |}.

(** What can happen to the mounted component: the channel list changes and
    the effect runs over it; the stream client calls one of the three
    handlers; the promise of a history request settles. *)
Inductive Action :=
| ChannelsChanged (channels : list ChannelInfo.t)
| InboundMessage (event : InboundMessageEvent.t) (env : Arrival)
| OutboundMessage (event : OutboundMessageEvent.t) (env : Arrival)
| TypingState (event : TypingStateEvent.t)
| HistoryResolved (cid : string) (data : MessagesResponse.t)
| HistoryRejected (cid : string).

Definition withLiveStates (d : Dashboard) (ls : LiveStates) : Dashboard :=
  {| liveStates := ls; requests := requests d; pending := pending d |}.

(** One iteration of [for (const channel of channels)]. *)
Definition effectStep (d : Dashboard) (channel : ChannelInfo.t) : Dashboard :=
  match loadHistory channel (liveStates d) with
  | (ls, Some req) =>
      {| liveStates := ls;
         requests := requests d ++ [req];
         pending := req_channel req :: pending d |}
  | (ls, None) => withLiveStates d ls
  end.

Definition historyEffect (channels : list ChannelInfo.t) (d : Dashboard)
  : Dashboard :=
  foldl effectStep d channels.

(** Removes the first occurrence: a promise settles once. *)
Fixpoint settle (cid : string) (l : list string) : list string :=
  match l with
  | [] => []
  | c :: l' => if decide (c = cid) then l' else c :: settle cid l'
  end.

Section Step.
Variable getTime : string → Z.

Definition step (d : Dashboard) (a : Action) : Dashboard :=
  match a with
  | ChannelsChanged channels => historyEffect channels d
  | InboundMessage event env =>
      withLiveStates d (handleInboundMessage event env (liveStates d))
  | OutboundMessage event env =>
      withLiveStates d (handleOutboundMessage event env (liveStates d))
  | TypingState event =>
      withLiveStates d (handleTypingState event (liveStates d))
  | HistoryResolved cid data =>
      if decide (cid ∈ pending d) then
        {| liveStates := mergeHistory cid (toHistory getTime data) (liveStates d);
           requests := requests d;
           pending := settle cid (pending d) |}
      else d
  | HistoryRejected cid =>
      (* the [catch] handler only logs *)
      if decide (cid ∈ pending d) then
        {| liveStates := liveStates d;
           requests := requests d;
           pending := settle cid (pending d) |}
      else d
  end.

Definition run (d : Dashboard) (actions : list Action) : Dashboard :=
  foldl step d actions.

End Step.

(** How often a history request was issued for a channel. *)
Definition requestCount (cid : string) (d : Dashboard) : nat :=
  length (filter (λ r, req_channel r = cid) (requests d)).

(** Whether a handler call is a message event addressed to the channel. *)
Definition messageEventFor (cid : string) (a : Action) : bool :=
  match a with
  | InboundMessage event _ =>
      bool_decide (InboundMessageEvent.channel_id event = cid)
  | OutboundMessage event _ =>
      bool_decide (OutboundMessageEvent.channel_id event = cid)
  | _ => false
  end.

(** The properties of a message sequence that the data model talks about. *)
Definition ascending (l : list ChatMessage.t) : Prop :=
  Sorted Z.le (ChatMessage.timestamp <$> l).

Definition distinctIds (l : list ChatMessage.t) : Prop :=
  NoDup (ChatMessage.id <$> l).

(** ** The stream client ([useEventSource])

    A handler receives an [unknown]: the value [JSON.parse] produced, or the
    raw [event.data] string.  It acts on whatever the application keeps
    ([App]) and either returns or throws. *)
Inductive Payload (JSON : Type) :=
| Decoded (value : JSON)
| Raw (data : string).
Arguments Decoded {JSON} value.
Arguments Raw {JSON} data.

Inductive Completion (App : Type) :=
| Returns (a : App)
| Throws (a : App).
Arguments Returns {App} a.
Arguments Throws {App} a.

Definition EventHandler (JSON App : Type) : Type :=
  Payload JSON → App → Completion App.

(** An [EventSource] object: the types it has a listener for, and whether
    [close()] was called on it.  A closed source delivers nothing. *)
Record EventSource := {
  es_url : string;
  listeners : gset string;
  closed : bool
}.

(** A [setTimeout(connect, delay)] call. *)
Inductive TimerState := Scheduled | Cleared | Fired.
Record Timer := { delay : nat; timerState : TimerState }.

(** The refs of the hook, every [EventSource] and timer it created (a
    source or timer is named by its position), the application state the
    handlers act on, and the log of handler calls.  [mounted] is React's
    side of the effect: whether it ran with a cleanup that is still due. *)
Record Client (JSON App : Type) := {
  handlersRef : gmap string (EventHandler JSON App);
  reconnectTimeout : option nat;
  eventSourceRef : option nat;
  sources : list EventSource;
  timers : list Timer;
  mounted : bool;
  app : App;
  calls : list (string * Payload JSON)
}.
Arguments handlersRef {JSON App} c.
Arguments reconnectTimeout {JSON App} c.
Arguments eventSourceRef {JSON App} c.
Arguments sources {JSON App} c.
Arguments timers {JSON App} c.
Arguments mounted {JSON App} c.
Arguments app {JSON App} c.
Arguments calls {JSON App} c.

Definition closeSource (s : EventSource) : EventSource :=
  {| es_url := es_url s; listeners := listeners s; closed := true |}.

Definition clearTimer (t : Timer) : Timer :=
  match timerState t with
  | Scheduled => {| delay := delay t; timerState := Cleared |}
  | _ => t
  end.

Definition fireTimer (t : Timer) : Timer :=
  {| delay := delay t; timerState := Fired |}.

(** [ref.current?.close()] *)
Definition closeCurrent (ref : option nat) (srcs : list EventSource)
  : list EventSource :=
  match ref with
  | Some i => alter closeSource i srcs
  | None => srcs
  end.

Inductive ClientAction (JSON App : Type) :=
| Render (handlers : gmap string (EventHandler JSON App))
| EffectRuns (enabled : bool)
| EffectCleanup
| SourceEvent (source : nat) (eventType data : string)
| SourceError (source : nat)
| TimerFires (timer : nat).
Arguments Render {JSON App} handlers.
Arguments EffectRuns {JSON App} enabled.
Arguments EffectCleanup {JSON App}.
Arguments SourceEvent {JSON App} source eventType data.
Arguments SourceError {JSON App} source.
Arguments TimerFires {JSON App} timer.

Section StreamClient.
Context {JSON App : Type}.
(** [JSON.parse]; [None] when it throws. *)
Variable JSON_parse : string → option JSON.
Variable url : string.

Definition initialClient (handlers : gmap string (EventHandler JSON App))
    (a : App) : Client JSON App :=
  {| handlersRef := handlers; reconnectTimeout := None; eventSourceRef := None;
     sources := []; timers := []; mounted := false; app := a; calls := [] |}.

(** [handlersRef.current[eventType]?.(payload)]; the flag tells whether the
    handler threw. *)
Definition invoke (eventType : string) (payload : Payload JSON)
    (c : Client JSON App) : Client JSON App * bool :=
  match handlersRef c !! eventType with
  | None => (c, false)
  | Some handler =>
      let called (a : App) :=
        {| handlersRef := handlersRef c; reconnectTimeout := reconnectTimeout c;
           eventSourceRef := eventSourceRef c; sources := sources c;
           timers := timers c; mounted := mounted c; app := a;
           calls := calls c ++ [(eventType, payload)] |} in
      match handler payload (app c) with
      | Returns a => (called a, false)
      | Throws a => (called a, true)
      end
  end.

(** The listener added for [eventType]: the [try] block covers both the
    parse and the handler call. *)
Definition listener (eventType data : string) (c : Client JSON App)
  : Client JSON App :=
  match JSON_parse data with
  | Some value =>
      let (c', threw) := invoke eventType (Decoded value) c in
      if threw then fst (invoke eventType (Raw data) c') else c'
  | None => fst (invoke eventType (Raw data) c)
  end.

Definition connect (c : Client JSON App) : Client JSON App :=
  let srcs := closeCurrent (eventSourceRef c) (sources c) in
  let source :=
    {| es_url := url; listeners := dom (handlersRef c); closed := false |} in
  {| handlersRef := handlersRef c; reconnectTimeout := reconnectTimeout c;
     eventSourceRef := Some (length srcs); sources := srcs ++ [source];
     timers := timers c; mounted := mounted c; app := app c; calls := calls c |}.

(** [source.onerror] of the source at position [i]. *)
Definition onerror (i : nat) (c : Client JSON App) : Client JSON App :=
  {| handlersRef := handlersRef c;
     reconnectTimeout := Some (length (timers c));
     eventSourceRef := eventSourceRef c;
     sources := alter closeSource i (sources c);
     timers := timers c ++ [{| delay := 2000; timerState := Scheduled |}];
     mounted := mounted c; app := app c; calls := calls c |}.

(** The body of the effect, and the cleanup it returns. *)
Definition effect (enabled : bool) (c : Client JSON App) : Client JSON App :=
  if enabled then
    let c' := connect c in
    {| handlersRef := handlersRef c'; reconnectTimeout := reconnectTimeout c';
       eventSourceRef := eventSourceRef c'; sources := sources c';
       timers := timers c'; mounted := true; app := app c'; calls := calls c' |}
  else c.

Definition cleanup (c : Client JSON App) : Client JSON App :=
  {| handlersRef := handlersRef c; reconnectTimeout := reconnectTimeout c;
     eventSourceRef := eventSourceRef c;
     sources := closeCurrent (eventSourceRef c) (sources c);
     timers := match reconnectTimeout c with
               | Some t => alter clearTimer t (timers c)
               | None => timers c
               end;
     mounted := false; app := app c; calls := calls c |}.

Definition timerFires (t : nat) (c : Client JSON App) : Client JSON App :=
  connect
    {| handlersRef := handlersRef c; reconnectTimeout := reconnectTimeout c;
       eventSourceRef := eventSourceRef c; sources := sources c;
       timers := alter fireTimer t (timers c);
       mounted := mounted c; app := app c; calls := calls c |}.

(** React runs the effect only when no cleanup of it is outstanding, and a
    cleanup only once; the browser delivers events and errors only on a
    source that is not closed, and runs a timer only while it is scheduled. *)
Definition clientStep (c : Client JSON App) (a : ClientAction JSON App)
  : Client JSON App :=
  match a with
  | Render handlers =>
      {| handlersRef := handlers; reconnectTimeout := reconnectTimeout c;
         eventSourceRef := eventSourceRef c; sources := sources c;
         timers := timers c; mounted := mounted c; app := app c;
         calls := calls c |}
  | EffectRuns enabled => if mounted c then c else effect enabled c
  | EffectCleanup => if mounted c then cleanup c else c
  | SourceEvent i eventType data =>
      match sources c !! i with
      | Some s =>
          if closed s then c
          else if decide (eventType ∈ listeners s) then listener eventType data c
          else c
      | None => c
      end
  | SourceError i =>
      match sources c !! i with
      | Some s => if closed s then c else onerror i c
      | None => c
      end
  | TimerFires t =>
      match timerState <$> timers c !! t with
      | Some Scheduled => timerFires t c
      | _ => c
      end
  end.

Definition clientRun (c : Client JSON App) (actions : list (ClientAction JSON App))
  : Client JSON App :=
  foldl clientStep c actions.

End StreamClient.

(** An action that starts the client (again). *)
Definition startsClient {JSON App} (a : ClientAction JSON App) : bool :=
  match a with
  | EffectRuns true => true
  | _ => false
  end.

(** ** The merge rule as the design document words it

    History as the prefix; the cutoff is the timestamp of its last element,
    0 without one; the live messages strictly newer than the cutoff follow;
    of the whole, the last 50 elements remain. *)
Module MergeRule.

Definition cutoff (history : list ChatMessage.t) : Z :=
  match last history with
  | Some m => ChatMessage.timestamp m
  | None => 0
  end.

Definition strictlyNewer (history : list ChatMessage.t) (m : ChatMessage.t)
  : bool :=
  bool_decide (cutoff history < ChatMessage.timestamp m).

Definition lastElements {A} (n : nat) (l : list A) : list A :=
  reverse (take n (reverse l)).

Definition merged (history live : list ChatMessage.t) : list ChatMessage.t :=
  lastElements 50 (history ++ List.filter (strictlyNewer history) live).

End MergeRule.

(** An action that writes the typing indicator of the channel. *)
Definition writesTyping (cid : string) (a : Action) : bool :=
  match a with
  | TypingState event => bool_decide (TypingStateEvent.channel_id event = cid)
  | OutboundMessage event _ =>
      bool_decide (OutboundMessageEvent.channel_id event = cid)
  | _ => false
  end.

(** The invariant the data model announces for a message sequence. *)
Definition announcedInvariant (l : list ChatMessage.t) : Prop :=
  (length l ≤ MAX_MESSAGES)%nat ∧ ascending l ∧ distinctIds l.

(** ** Scenario data

    The two scenarios of the design document, and the values used to
    exercise the statements below. *)

Definition historyMessage (ident : string) (ts : Z) : ChatMessage.t :=
  {| ChatMessage.id := ident; ChatMessage.sender := ChatMessage.user;
     ChatMessage.senderName := Some "u1"; ChatMessage.text := "hello";
     ChatMessage.timestamp := ts |}.

Definition history300 : list ChatMessage.t :=
  [historyMessage "m1" 100; historyMessage "m2" 200; historyMessage "m3" 300].

Definition inboundC2 : InboundMessageEvent.t :=
  {| InboundMessageEvent.agent_id := "agent"; InboundMessageEvent.channel_id := "c2";
     InboundMessageEvent.sender_id := "u1"; InboundMessageEvent.text := "hi" |}.

Definition arrival250 : Arrival :=
  {| id_now := 250; id_random := "0.42"; ts_now := 250 |}.

Definition live250 : ChatMessage.t := inboundChatMessage inboundC2 arrival250.

Definition loadingC2 : ChannelLiveState.t :=
  {| ChannelLiveState.isTyping := false; ChannelLiveState.messages := [live250];
     ChannelLiveState.historyLoaded := true |}.

Definition storeC2 : LiveStates := {[ "c2" := loadingC2 ]}.

(** Every sequence of the store is within the cap. *)
Definition bounded (ls : LiveStates) : Prop :=
  ∀ cid, (length (messagesOf (ls !! cid)) ≤ MAX_MESSAGES)%nat.

Definition channelC2 : ChannelInfo.t :=
  {| ChannelInfo.agent_id := "agent"; ChannelInfo.id := "c2";
     ChannelInfo.platform := "discord"; ChannelInfo.display_name := None;
     ChannelInfo.is_active := true;
     ChannelInfo.last_activity_at := "1970-01-01T00:00:00.300Z";
     ChannelInfo.created_at := "1970-01-01T00:00:00.000Z" |}.

Definition row (ident created_at : string) : ConversationMessage.t :=
  {| ConversationMessage.id := ident;
     ConversationMessage.role := ConversationMessage.user;
     ConversationMessage.sender_name := None;
     ConversationMessage.sender_id := Some "u1";
     ConversationMessage.content := "hello";
     ConversationMessage.created_at := created_at |}.

Definition response300 : MessagesResponse.t :=
  {| MessagesResponse.messages :=
       [row "m1" "1970-01-01T00:00:00.100Z";
        row "m2" "1970-01-01T00:00:00.200Z";
        row "m3" "1970-01-01T00:00:00.300Z"] |}.

(** [new Date(s).getTime()] on the dates of the scenario. *)
Definition scenarioGetTime (s : string) : Z :=
  if decide (s = "1970-01-01T00:00:00.100Z") then 100
  else if decide (s = "1970-01-01T00:00:00.200Z") then 200
  else if decide (s = "1970-01-01T00:00:00.300Z") then 300
  else 0.


(** What an update needs from its input to keep a sequence in ascending
    order and free of duplicate identities: an appended message is not older
    than the last element and brings an identity of its own; a merged
    history is itself in order and free of duplicates, and shares no
    identity with the live messages that the cutoff lets through. *)
Definition appendable (l : list ChatMessage.t) (m : ChatMessage.t) : Prop :=
  (∀ x, last l = Some x → ChatMessage.timestamp x ≤ ChatMessage.timestamp m)
  ∧ ChatMessage.id m ∉ ChatMessage.id <$> l.

Definition mergeable (history live : list ChatMessage.t) : Prop :=
  ascending history ∧ distinctIds history
  ∧ ∀ m, m ∈ live → lastHistoryTs history < ChatMessage.timestamp m →
         ChatMessage.id m ∉ ChatMessage.id <$> history.

Definition inputFits (getTime : string → Z) (before : list ChatMessage.t)
    (cid : string) (a : Action) : Prop :=
  match a with
  | InboundMessage event env =>
      InboundMessageEvent.channel_id event = cid →
      appendable before (inboundChatMessage event env)
  | OutboundMessage event env =>
      OutboundMessageEvent.channel_id event = cid →
      appendable before (outboundChatMessage event env)
  | HistoryResolved c data =>
      c = cid → mergeable (toHistory getTime data) before
  | _ => True
  end.

Definition typingC2 (value : bool) : TypingStateEvent.t :=
  {| TypingStateEvent.agent_id := "agent"; TypingStateEvent.channel_id := "c2";
     TypingStateEvent.is_typing := value |}.

Definition outboundC2 : OutboundMessageEvent.t :=
  {| OutboundMessageEvent.agent_id := "agent";
     OutboundMessageEvent.channel_id := "c2";
     OutboundMessageEvent.text := "done" |}.

Definition inboundC1 : InboundMessageEvent.t :=
  {| InboundMessageEvent.agent_id := "agent"; InboundMessageEvent.channel_id := "c1";
     InboundMessageEvent.sender_id := "u1"; InboundMessageEvent.text := "hi" |}.

Definition arrival400 : Arrival :=
  {| id_now := 400; id_random := "0.73"; ts_now := 400 |}.

(** How many requests of a channel have not settled. *)
Definition pendingCount (cid : string) (d : Dashboard) : nat :=
  length (filter (λ c, c = cid) (pending d)).

(** The bookkeeping the effect relies on: a request that has not settled
    was issued, and a request is issued only together with the marker. *)
Definition requestsAccounted (d : Dashboard) : Prop :=
  ∀ cid,
    (pendingCount cid d ≤ requestCount cid d)%nat
    ∧ (requestCount cid d ≤ Nat.b2n (historyLoadedOf (liveStates d !! cid)))%nat.

(** The requests a step adds for a channel. *)
Definition requestsIssued (cid : string) (d : Dashboard) (a : Action) : nat :=
  match a with
  | ChannelsChanged channels =>
      Nat.b2n (negb (historyLoadedOf (liveStates d !! cid))
               && bool_decide (cid ∈ ChannelInfo.id <$> channels))
  | _ => 0%nat
  end.

(** No message event of the channel among the actions. *)
Definition quietFor (cid : string) (actions : list Action) : bool :=
  forallb (λ a, negb (messageEventFor cid a)) actions.

(** ** Reading the client *)

(** Where a handler call leaves the application, whether it returned or
    threw. *)
Definition outcome {App} (r : Completion App) : App :=
  match r with
  | Returns a => a
  | Throws a => a
  end.

(** Everything of the client but the application state and the call log. *)
Definition wiring {JSON App} (c : Client JSON App) :=
  (handlersRef c, reconnectTimeout c, eventSourceRef c, sources c, timers c,
   mounted c).

Definition allClosed (srcs : list EventSource) : Prop :=
  ∀ i s, srcs !! i = Some s → closed s = true.

Definition noneScheduled (tms : list Timer) : Prop :=
  ∀ t tm, tms !! t = Some tm → timerState tm ≠ Scheduled.

(** The refs name whatever is live: a source that is not closed is the one
    in [eventSourceRef]; a scheduled timer is the one in [reconnectTimeout];
    the two never coexist; and an unmounted client has neither. *)
Record tracked {JSON App} (c : Client JSON App) : Prop := {
  tracked_source :
    ∀ i s, sources c !! i = Some s → closed s = false → eventSourceRef c = Some i;
  tracked_timer :
    ∀ t tm, timers c !! t = Some tm → timerState tm = Scheduled →
            reconnectTimeout c = Some t;
  tracked_exclusive :
    (∃ i s, sources c !! i = Some s ∧ closed s = false) →
    noneScheduled (timers c);
  tracked_unmounted :
    mounted c = false → allClosed (sources c) ∧ noneScheduled (timers c)
}.

(** Nothing is left that could call a handler. *)
Definition idle {JSON App} (c : Client JSON App) : Prop :=
  mounted c = false ∧ allClosed (sources c) ∧ noneScheduled (timers c).

(** *** A client to exercise the statements *)

Definition sampleParse (data : string) : option nat :=
  if decide (data = "1") then Some 1%nat
  else if decide (data = "2") then Some 2%nat
  else None.

(** The application keeps the payloads it was handed. *)
Definition recordPayload : EventHandler nat (list (Payload nat)) :=
  λ payload seen, Returns (seen ++ [payload]).

Definition sampleHandlers : gmap string (EventHandler nat (list (Payload nat))) :=
  {[ "inbound_message" := recordPayload ]}.

Definition sampleClient : Client nat (list (Payload nat)) :=
  clientRun sampleParse "/api/events" (initialClient sampleHandlers [])
    [EffectRuns true].

(** The payload the listener hands over first: the parsed value, or the raw
    string when [JSON.parse] throws. *)
Definition decode {JSON} (JSON_parse : string → option JSON) (data : string)
  : Payload JSON :=
  match JSON_parse data with
  | Some value => Decoded value
  | None => Raw data
  end.

Definition channelC1 : ChannelInfo.t :=
  {| ChannelInfo.agent_id := "agent"; ChannelInfo.id := "c1";
     ChannelInfo.platform := "slack"; ChannelInfo.display_name := Some "general";
     ChannelInfo.is_active := true;
     ChannelInfo.last_activity_at := "1970-01-01T00:00:00.000Z";
     ChannelInfo.created_at := "1970-01-01T00:00:00.000Z" |}.

(** A live message reaches [c1] while its history request is outstanding;
    the request then resolves with no rows. *)
Definition emptyHistoryRace : list Action :=
  [ChannelsChanged [channelC1];
   InboundMessage inboundC1 arrival400;
   HistoryResolved "c1" {| MessagesResponse.messages := [] |}].

(** ** The rest of the dashboard component

    *** Formatting helpers

    [seconds] is an integer count.  [Math.floor(a / b)] is the floor
    division and [%] keeps the sign of the dividend. *)
Definition formatUptime (seconds : Z) : string :=
  let hours := seconds `div` 3600 in
  let minutes := (seconds `rem` 3600) `div` 60 in
  let secs := seconds `rem` 60 in
  if decide (0 < hours) then pretty hours +:+ "h " +:+ pretty minutes +:+ "m"
  else if decide (0 < minutes) then
    pretty minutes +:+ "m " +:+ pretty secs +:+ "s"
  else pretty secs +:+ "s".

(** [now] is [Date.now()] and [getTime] is [new Date(dateStr).getTime()]. *)
Definition formatTimeAgo (now : Z) (getTime : string → Z) (dateStr : string)
  : string :=
  let seconds := (now - getTime dateStr) `div` 1000 in
  if decide (seconds < 60) then "just now"
  else if decide (seconds < 3600) then pretty (seconds `div` 60) +:+ "m ago"
  else if decide (seconds < 86400) then pretty (seconds `div` 3600) +:+ "h ago"
  else pretty (seconds `div` 86400) +:+ "d ago".

Definition platformIcon (platform : string) : string :=
  if decide (platform = "discord") then "Discord"
  else if decide (platform = "slack") then "Slack"
  else if decide (platform = "telegram") then "Telegram"
  else if decide (platform = "webhook") then "Webhook"
  else if decide (platform = "cron") then "Cron"
  else platform.

Definition platformColor (platform : string) : string :=
  if decide (platform = "discord") then "bg-indigo-500/20 text-indigo-400"
  else if decide (platform = "slack") then "bg-green-500/20 text-green-400"
  else if decide (platform = "telegram") then "bg-blue-500/20 text-blue-400"
  else if decide (platform = "cron") then "bg-amber-500/20 text-amber-400"
  else "bg-gray-500/20 text-gray-400".

(** *** What [ChannelCard] shows

    The card is read off as data: the heading, the typing dots, the platform
    badge, the age of the last activity and, when there is at least one
    visible message, the message stream: the count of earlier messages (when
    some are hidden) and one row per visible message. *)
Record MessageRow := {
  row_key : string;
  row_time : string;
  row_label : string;
  row_text : string
}.

Record MessageStream := {
  earlier : option nat;
  rows : list MessageRow
}.

Record Card := {
  heading : string;
  typingDots : bool;
  badge : string * string;
  lastActivity : string;
  stream : option MessageStream
}.

(** [message.sender === "user" ? (message.senderName ?? "user") : "bot"] *)
Definition senderLabel (message : ChatMessage.t) : string :=
  match ChatMessage.sender message with
  | ChatMessage.user => default "user" (ChatMessage.senderName message)
  | ChatMessage.bot => "bot"
  end.

Definition visibleMessages (liveState : option ChannelLiveState.t)
  : list ChatMessage.t :=
  slice_last VISIBLE_MESSAGES (messagesOf liveState).

Section Card.
(** [Date.now()], [new Date(s).getTime()] and [formatTimestamp], which
    prints a timestamp in the locale of the browser. *)
Variable now : Z.
Variable getTime : string → Z.
Variable formatTimestamp : Z → string.

Definition messageRow (message : ChatMessage.t) : MessageRow :=
  {| row_key := ChatMessage.id message;
     row_time := formatTimestamp (ChatMessage.timestamp message);
     row_label := senderLabel message;
     row_text := ChatMessage.text message |}.

Definition ChannelCard (channel : ChannelInfo.t)
    (liveState : option ChannelLiveState.t) : Card :=
  let messages := messagesOf liveState in
  let visible := visibleMessages liveState in
  {| heading := default (ChannelInfo.id channel) (ChannelInfo.display_name channel);
     typingDots := isTypingOf liveState;
     badge := (platformColor (ChannelInfo.platform channel),
               platformIcon (ChannelInfo.platform channel));
     lastActivity :=
       formatTimeAgo now getTime (ChannelInfo.last_activity_at channel);
     stream :=
       if decide (0 < length visible)%nat then
         Some {| earlier :=
                   if decide (VISIBLE_MESSAGES < length messages)%nat
                   then Some (length messages - VISIBLE_MESSAGES)%nat
                   else None;
                 rows := messageRow <$> visible |}
       else None |}.

(** The grid of the dashboard: one card per channel of the list, each with
    the live state stored under the channel's id. *)
Definition channelGrid (channels : list ChannelInfo.t) (ls : LiveStates)
  : list Card :=
  (λ channel, ChannelCard channel (ls !! ChannelInfo.id channel)) <$> channels.

End Card.

(** *** Runs of events *)

(** The target of a handler call. *)
Definition eventChannel (a : Action) : option string :=
  match a with
  | InboundMessage event _ => Some (InboundMessageEvent.channel_id event)
  | OutboundMessage event _ => Some (OutboundMessageEvent.channel_id event)
  | TypingState event => Some (TypingStateEvent.channel_id event)
  | _ => None
  end.

(** The message a handler call appends. *)
Definition eventMessage (a : Action) : option ChatMessage.t :=
  match a with
  | InboundMessage event env => Some (inboundChatMessage event env)
  | OutboundMessage event env => Some (outboundChatMessage event env)
  | _ => None
  end.

(** Every action of a run meets the store with an input that fits. *)
Fixpoint fitsRun (getTime : string → Z) (d : Dashboard) (actions : list Action)
  : Prop :=
  match actions with
  | [] => True
  | a :: rest =>
      (∀ cid, inputFits getTime (messagesOf (liveStates d !! cid)) cid a)
      ∧ fitsRun getTime (step getTime d a) rest
  end.

(** *** Failing connections *)

(** The client has a connection: the source in [eventSourceRef] is open. *)
Definition connected {JSON App} (c : Client JSON App) : Prop :=
  ∃ i s, eventSourceRef c = Some i ∧ sources c !! i = Some s ∧ closed s = false.

(** A frame of the type on the source would reach a handler. *)
Definition dispatchable {JSON App} (c : Client JSON App) (i : nat)
    (eventType : string) : Prop :=
  ∃ s, sources c !! i = Some s ∧ closed s = false ∧ eventType ∈ listeners s
       ∧ is_Some (handlersRef c !! eventType).

(** The current connection fails and the timer this schedules fires. *)
Definition failureCycle {JSON App} (JSON_parse : string → option JSON)
    (url : string) (c : Client JSON App) : Client JSON App :=
  match eventSourceRef c with
  | Some i =>
      clientStep JSON_parse url
        (clientStep JSON_parse url c (SourceError i))
        (TimerFires (length (timers c)))
  | None => c
  end.

(** A handler that throws on whatever it is handed. *)
Definition alwaysThrows : EventHandler nat (list (Payload nat)) :=
  λ payload seen, Throws (seen ++ [payload]).

(** ** The REST client ([api/client.ts])

    *** [encodeURIComponent]

    A string stands for its UTF-8 bytes.  [encodeURIComponent] keeps the
    unreserved characters (letters, digits and [- _ . ! ~ * ' ( )]) and
    writes every other byte as [%] and two upper-case hexadecimal digits. *)
Definition unreserved (a : Ascii.ascii) : bool :=
  let n := Ascii.N_of_ascii a in
  ((65 <=? n) && (n <=? 90) || (97 <=? n) && (n <=? 122)
   || (48 <=? n) && (n <=? 57))%N
  || bool_decide (a ∈ ["-"; "_"; "."; "!"; "~"; "*"; "'"; "("; ")"]%char).

Definition hexDigit (n : N) : Ascii.ascii :=
  Ascii.ascii_of_N (if (n <? 10)%N then 48 + n else 55 + n).

Definition escapeByte (a : Ascii.ascii) : string :=
  let n := Ascii.N_of_ascii a in
  String "%" (String (hexDigit (n `div` 16)%N)
                (String (hexDigit (n `mod` 16)%N) "")).

Fixpoint encodeURIComponent (s : string) : string :=
  match s with
  | EmptyString => ""
  | String a rest =>
      (if unreserved a then String a "" else escapeByte a)
      +:+ encodeURIComponent rest
  end.

(** Whether a character occurs in a string. *)
Fixpoint occurs (a : Ascii.ascii) (s : string) : bool :=
  match s with
  | EmptyString => false
  | String b rest => bool_decide (a = b) || occurs a rest
  end.

(** The value of a hexadecimal digit, and the reading of an escaped string
    back into bytes. *)
Definition hexValue (a : Ascii.ascii) : N :=
  let n := Ascii.N_of_ascii a in
  if (n <? 58)%N then (n - 48)%N else (n - 55)%N.

Fixpoint unescape (s : string) : string :=
  match s with
  | EmptyString => ""
  | String a rest =>
      if bool_decide (a = "%"%char) then
        match rest with
        | String h (String l rest') =>
            String (Ascii.ascii_of_N (16 * hexValue h + hexValue l)) (unescape rest')
        | _ => String a (unescape rest)
        end
      else String a (unescape rest)
  end.

(** Characters with a meaning of their own inside a query string. *)
Definition queryDelimiters : list Ascii.ascii :=
  ["&"; "="; "?"; "#"; "/"; "+"; " "]%char.

(** *** The endpoints *)

Definition API_BASE : string := "/api".

(** [channelMessages(channelId, limit = 20)]: the path handed to
    [fetchJson]; [None] is an omitted [limit]. *)
Definition channelMessagesPath (channelId : string) (limit : option nat)
  : string :=
  "/channels/messages?channel_id=" +:+ encodeURIComponent channelId
  +:+ "&limit=" +:+ pretty (default 20%nat limit).

Definition statusPath : string := "/status".
Definition channelsPath : string := "/channels".
Definition eventsUrl : string := API_BASE +:+ "/events".

(** The path the history effect requests for a channel. *)
Definition requestPath (req : HistoryRequest) : string :=
  channelMessagesPath (req_channel req) (Some (req_limit req)).

(** *** [fetchJson]

    What [fetch] answers: nothing (the promise rejects), or a response with
    its status and its body read as JSON ([None] when [response.json()]
    rejects).  [response.ok] holds for the statuses 200 to 299. *)
Record Response (JSON : Type) := {
  status : nat;
  body : option JSON
}.
Arguments status {JSON} r.
Arguments body {JSON} r.

Definition ok {JSON} (r : Response JSON) : bool :=
  (200 <=? status r)%nat && (status r <=? 299)%nat.

Inductive FetchFailure :=
| NetworkFailure
| ApiError (message : string)
| BodyNotJson.

Definition fetchJson {JSON} (fetch : string → option (Response JSON))
    (path : string) : JSON + FetchFailure :=
  match fetch (API_BASE +:+ path) with
  | None => inr NetworkFailure
  | Some response =>
      if negb (ok response)
      then inr (ApiError ("API error: " +:+ pretty (status response)))
      else match body response with
           | Some value => inl value
           | None => inr BodyNotJson
           end
  end.

(** The history request of the effect, answered: the [then] callback merges
    what [fetchJson] resolved with, the [catch] callback takes the rest. *)
Definition historyAnswered (getTime : string → Z)
    (fetch : string → option (Response MessagesResponse.t))
    (req : HistoryRequest) (d : Dashboard) : Dashboard :=
  match fetchJson fetch (requestPath req) with
  | inl data => step getTime d (HistoryResolved (req_channel req) data)
  | inr _ => step getTime d (HistoryRejected (req_channel req))
  end.

(** * Properties *)

(** ** [slice(-n)] *)

Lemma slice_last_length {A} (n : nat) (l : list A) :
  length (slice_last n l) = (length l `min` n)%nat.
Proof. unfold slice_last. rewrite length_drop. lia. Qed.

Lemma slice_last_bound {A} (n : nat) (l : list A) :
  (length (slice_last n l) ≤ n)%nat.
Proof. rewrite slice_last_length. lia. Qed.

Lemma slice_last_short {A} (n : nat) (l : list A) :
  (length l ≤ n)%nat → slice_last n l = l.
Proof.
  intros Hle. unfold slice_last.
  replace (length l - n)%nat with 0%nat by lia. reflexivity.
Qed.

Lemma slice_last_elem {A} (n : nat) (l : list A) (x : A) :
  x ∈ slice_last n l → x ∈ l.
Proof.
  unfold slice_last. intros Hx.
  eapply elem_of_suffix; [exact Hx | apply suffix_drop].
Qed.

Lemma slice_last_reverse {A} (n : nat) (l : list A) :
  slice_last n l = MergeRule.lastElements n l.
Proof.
  unfold slice_last, MergeRule.lastElements.
  rewrite take_reverse, reverse_involutive. reflexivity.
Qed.

Lemma slice_last_app_exact {A} (n : nat) (l k : list A) :
  length k = n → slice_last n (l ++ k) = k.
Proof.
  intros Hk. unfold slice_last. rewrite length_app.
  replace (length l + length k - n)%nat with (length l) by lia.
  apply drop_app_length.
Qed.

(** ** Sequences in ascending order *)

Lemma ascending_strongly (l : list ChatMessage.t) :
  ascending l ↔ StronglySorted Z.le (ChatMessage.timestamp <$> l).
Proof.
  unfold ascending. split.
  - apply Sorted_StronglySorted. intros x y z. apply Z.le_trans.
  - apply StronglySorted_Sorted.
Qed.

Lemma ascending_drop (n : nat) (l : list ChatMessage.t) :
  ascending l → ascending (drop n l).
Proof.
  rewrite !ascending_strongly, fmap_drop. intros Hs.
  rewrite <- (take_drop n (ChatMessage.timestamp <$> l)) in Hs.
  by apply StronglySorted_app_1_r in Hs.
Qed.

Lemma ascending_app (l k : list ChatMessage.t) :
  ascending l → ascending k →
  (∀ x y, x ∈ l → y ∈ k → ChatMessage.timestamp x ≤ ChatMessage.timestamp y) →
  ascending (l ++ k).
Proof.
  rewrite !ascending_strongly, fmap_app. intros Hl Hk Hlk.
  apply StronglySorted_app_2; [|done..].
  intros t1 t2 (x & -> & Hx)%list_elem_of_fmap (y & -> & Hy)%list_elem_of_fmap.
  by apply Hlk.
Qed.

Lemma ascending_filter (P : ChatMessage.t → Prop) `{!∀ m, Decision (P m)}
    (l : list ChatMessage.t) :
  ascending l → ascending (filter P l).
Proof.
  rewrite !ascending_strongly. induction l as [|m l IH]; [done|].
  rewrite fmap_cons. intros [Hl Hm]%StronglySorted_inv.
  rewrite filter_cons. destruct (decide (P m)); [|by apply IH].
  rewrite fmap_cons. constructor; [by apply IH|].
  rewrite Forall_forall in Hm. apply Forall_forall.
  intros t (y & -> & Hy)%list_elem_of_fmap.
  apply Hm, list_elem_of_fmap. exists y. split; [done|].
  by apply list_elem_of_filter in Hy as [_ ?].
Qed.

Lemma lastHistoryTs_cutoff (history : list ChatMessage.t) :
  lastHistoryTs history = MergeRule.cutoff history.
Proof.
  unfold lastHistoryTs, MergeRule.cutoff. rewrite last_lookup.
  replace (pred (length history)) with (length history - 1)%nat by lia.
  case_decide as Hlen; [done|].
  destruct history; [done | simpl in Hlen; lia].
Qed.

(** In an ascending history no element is newer than the last one. *)
Lemma ascending_below_last (history : list ChatMessage.t) (m : ChatMessage.t) :
  ascending history → m ∈ history →
  ChatMessage.timestamp m ≤ lastHistoryTs history.
Proof.
  rewrite ascending_strongly, lastHistoryTs_cutoff. unfold MergeRule.cutoff.
  destruct (last history) as [z|] eqn:Hlast.
  - apply last_Some in Hlast as [front ->].
    rewrite fmap_app. intros Hs [Hm| ->%list_elem_of_singleton]%elem_of_app; [|lia].
    eapply (StronglySorted_app_1_elem_of _ _ _ _ _ Hs).
    + by apply list_elem_of_fmap_2.
    + apply list_elem_of_fmap_2, list_elem_of_singleton. reflexivity.
  - apply last_None in Hlast as ->. by intros _ ?%elem_of_nil.
Qed.

(** ** Reading the store after an update *)

Lemma pushMessage_lookup (cid : string) (m : ChatMessage.t) (prev : LiveStates) :
  pushMessage cid m prev !! cid =
  Some {| ChannelLiveState.isTyping := isTypingOf (prev !! cid);
          ChannelLiveState.messages :=
            slice_last MAX_MESSAGES (messagesOf (prev !! cid) ++ [m]);
          ChannelLiveState.historyLoaded := historyLoadedOf (prev !! cid) |}.
Proof.
  unfold pushMessage. rewrite lookup_insert_eq.
  by destruct (prev !! cid).
Qed.

Lemma pushMessage_lookup_ne (cid other : string) (m : ChatMessage.t)
    (prev : LiveStates) :
  cid ≠ other → pushMessage cid m prev !! other = prev !! other.
Proof. intros Hne. unfold pushMessage. by rewrite lookup_insert_ne. Qed.

Lemma clearTyping_lookup (cid : string) (prev : LiveStates) :
  clearTyping cid prev !! cid =
  Some {| ChannelLiveState.isTyping := false;
          ChannelLiveState.messages := messagesOf (prev !! cid);
          ChannelLiveState.historyLoaded := historyLoadedOf (prev !! cid) |}.
Proof. unfold clearTyping. by rewrite lookup_insert_eq. Qed.

Lemma clearTyping_lookup_ne (cid other : string) (prev : LiveStates) :
  cid ≠ other → clearTyping cid prev !! other = prev !! other.
Proof. intros Hne. unfold clearTyping. by rewrite lookup_insert_ne. Qed.

Lemma handleOutboundMessage_lookup (event : OutboundMessageEvent.t)
    (env : Arrival) (prev : LiveStates) :
  let cid := OutboundMessageEvent.channel_id event in
  handleOutboundMessage event env prev !! cid =
  Some {| ChannelLiveState.isTyping := false;
          ChannelLiveState.messages :=
            slice_last MAX_MESSAGES
              (messagesOf (prev !! cid) ++ [outboundChatMessage event env]);
          ChannelLiveState.historyLoaded := historyLoadedOf (prev !! cid) |}.
Proof.
  intros cid. unfold handleOutboundMessage. fold cid.
  by rewrite clearTyping_lookup, pushMessage_lookup.
Qed.

Lemma handleOutboundMessage_lookup_ne (event : OutboundMessageEvent.t)
    (env : Arrival) (prev : LiveStates) (other : string) :
  OutboundMessageEvent.channel_id event ≠ other →
  handleOutboundMessage event env prev !! other = prev !! other.
Proof.
  intros Hne. unfold handleOutboundMessage.
  by rewrite clearTyping_lookup_ne, pushMessage_lookup_ne.
Qed.

Lemma handleTypingState_lookup (event : TypingStateEvent.t) (prev : LiveStates) :
  let cid := TypingStateEvent.channel_id event in
  handleTypingState event prev !! cid =
  Some {| ChannelLiveState.isTyping := TypingStateEvent.is_typing event;
          ChannelLiveState.messages := messagesOf (prev !! cid);
          ChannelLiveState.historyLoaded := historyLoadedOf (prev !! cid) |}.
Proof. intros cid. unfold handleTypingState. by rewrite lookup_insert_eq. Qed.

Lemma handleTypingState_lookup_ne (event : TypingStateEvent.t)
    (prev : LiveStates) (other : string) :
  TypingStateEvent.channel_id event ≠ other →
  handleTypingState event prev !! other = prev !! other.
Proof. intros Hne. unfold handleTypingState. by rewrite lookup_insert_ne. Qed.

Lemma mergeHistory_lookup (cid : string) (history : list ChatMessage.t)
    (current : LiveStates) :
  mergeHistory cid history current !! cid =
  (λ existing,
     {| ChannelLiveState.isTyping := ChannelLiveState.isTyping existing;
        ChannelLiveState.messages :=
          mergedMessages history (ChannelLiveState.messages existing);
        ChannelLiveState.historyLoaded :=
          ChannelLiveState.historyLoaded existing |}) <$> current !! cid.
Proof.
  unfold mergeHistory. destruct (current !! cid) as [existing|] eqn:Hc.
  - by rewrite lookup_insert_eq.
  - by rewrite Hc.
Qed.

Lemma mergeHistory_lookup_ne (cid other : string) (history : list ChatMessage.t)
    (current : LiveStates) :
  cid ≠ other → mergeHistory cid history current !! other = current !! other.
Proof.
  intros Hne. unfold mergeHistory.
  destruct (current !! cid); [by rewrite lookup_insert_ne | done].
Qed.

Lemma loadHistory_lookup (channel : ChannelInfo.t) (prev : LiveStates) :
  let cid := ChannelInfo.id channel in
  (loadHistory channel prev).1 !! cid =
  if historyLoadedOf (prev !! cid) then prev !! cid
  else Some {| ChannelLiveState.isTyping := isTypingOf (prev !! cid);
               ChannelLiveState.messages := messagesOf (prev !! cid);
               ChannelLiveState.historyLoaded := true |}.
Proof.
  intros cid. unfold loadHistory. fold cid.
  destruct (historyLoadedOf (prev !! cid)); simpl; [done|].
  by rewrite lookup_insert_eq.
Qed.

Lemma loadHistory_lookup_ne (channel : ChannelInfo.t) (prev : LiveStates)
    (other : string) :
  ChannelInfo.id channel ≠ other →
  (loadHistory channel prev).1 !! other = prev !! other.
Proof.
  intros Hne. unfold loadHistory.
  destruct (historyLoadedOf _); simpl; [done|].
  by rewrite lookup_insert_ne.
Qed.

(** ** Merge on load *)

Lemma filter_strictlyNewer (history live : list ChatMessage.t) :
  List.filter (MergeRule.strictlyNewer history) live =
  newSseMessages history live.
Proof.
  unfold newSseMessages, MergeRule.strictlyNewer.
  rewrite lastHistoryTs_cutoff.
  induction live as [|m live IH]; [done|].
  rewrite filter_cons. simpl. rewrite IH.
  case_decide as Hm.
  - by rewrite bool_decide_eq_true_2.
  - by rewrite bool_decide_eq_false_2.
Qed.

Lemma mergedMessages_rule (history live : list ChatMessage.t) :
  mergedMessages history live = MergeRule.merged history live.
Proof.
  unfold mergedMessages, MergeRule.merged.
  by rewrite filter_strictlyNewer, slice_last_reverse.
Qed.

Lemma mergedMessages_elem (history live : list ChatMessage.t) (m : ChatMessage.t) :
  m ∈ mergedMessages history live →
  m ∈ history ∨ (m ∈ live ∧ lastHistoryTs history < ChatMessage.timestamp m).
Proof.
  unfold mergedMessages, newSseMessages.
  intros [Hm|Hm]%slice_last_elem%elem_of_app; [by left|].
  apply list_elem_of_filter in Hm as [? ?]. by right.
Qed.

(** C1.  When the history load resolves for a channel that has a live
    state, the channel's message sequence becomes what the merge rule says:
    the history, then the live messages strictly newer than the last history
    timestamp (0 for an empty history), the last 50 of the whole.  With a
    last history timestamp of 300, a live message stamped 250 that is not
    itself an element of the history is absent from the result. *)
Theorem merge_on_load_follows_rule (cid : string) (history : list ChatMessage.t)
    (current : LiveStates) (existing : ChannelLiveState.t) :
  current !! cid = Some existing →
  let live := ChannelLiveState.messages existing in
  let merged := messagesOf (mergeHistory cid history current !! cid) in
  merged = MergeRule.merged history live
  ∧ (∀ m, m ∈ live → MergeRule.cutoff history = 300 →
          ChatMessage.timestamp m = 250 → m ∉ history → m ∉ merged).
Proof.
  intros Hc live merged. subst live merged.
  rewrite mergeHistory_lookup, Hc. simpl. split.
  - apply mergedMessages_rule.
  - intros m _ Hcut Hts Hnot [Hin|[_ Hnew]]%mergedMessages_elem; [done|].
    rewrite lastHistoryTs_cutoff in Hnew. lia.
Qed.

Lemma merge_on_load_follows_rule_witness :
  let merged := messagesOf (mergeHistory "c2" history300 storeC2 !! "c2") in
  merged = MergeRule.merged history300 [live250]
  ∧ (∀ m, m ∈ [live250] → MergeRule.cutoff history300 = 300 →
          ChatMessage.timestamp m = 250 → m ∉ history300 → m ∉ merged).
Proof.
  apply (merge_on_load_follows_rule "c2" history300 storeC2 loadingC2).
  reflexivity.
Defined.

(** The identity a handler synthesizes. *)
Example live_identity : ChatMessage.id live250 = "in-250-0.42".
Proof. reflexivity. Qed.

(** The scenario itself: the live message stamped 250 is dropped and the
    three history messages remain. *)
Example merge_scenario_c2 :
  messagesOf (mergeHistory "c2" history300 storeC2 !! "c2") = history300.
Proof. vm_compute. reflexivity. Qed.

Lemma newSseMessages_history (history front : list ChatMessage.t) :
  (∀ m, m ∈ front → ChatMessage.timestamp m ≤ lastHistoryTs history) →
  newSseMessages history front = [].
Proof.
  intros Hle. unfold newSseMessages.
  induction front as [|m front IH]; [done|].
  rewrite filter_cons. case_decide as Hm.
  - specialize (Hle m ltac:(left)). lia.
  - apply IH. intros m' Hm'. apply Hle. by right.
Qed.

Lemma newSseMessages_kept (history live : list ChatMessage.t) :
  (∀ m, m ∈ live → lastHistoryTs history < ChatMessage.timestamp m) →
  newSseMessages history live = live.
Proof.
  intros Hlt. unfold newSseMessages.
  induction live as [|m live IH]; [done|].
  rewrite filter_cons. case_decide as Hm.
  - f_equal. apply IH. intros m' Hm'. apply Hlt. by right.
  - specialize (Hlt m ltac:(left)). lia.
Qed.

(** Merging a result again with the same history changes nothing, as long
    as no history element is newer than the last one. *)
Lemma mergedMessages_again (history live : list ChatMessage.t) :
  (∀ m, m ∈ history → ChatMessage.timestamp m ≤ lastHistoryTs history) →
  mergedMessages history (mergedMessages history live) =
  mergedMessages history live.
Proof.
  intros Hle. unfold mergedMessages at 2.
  set (kept := newSseMessages history live).
  set (d := (length (history ++ kept) - MAX_MESSAGES)%nat).
  assert (Hslice : slice_last MAX_MESSAGES (history ++ kept) =
                   drop d history ++ drop (d - length history) kept).
  { unfold slice_last. fold d. apply drop_app. }
  rewrite Hslice. unfold mergedMessages.
  assert (Hnew : newSseMessages history
                   (drop d history ++ drop (d - length history) kept) =
                 drop (d - length history) kept).
  { unfold newSseMessages at 1. rewrite filter_app.
    fold (newSseMessages history (drop d history)).
    fold (newSseMessages history (drop (d - length history) kept)).
    rewrite newSseMessages_history, newSseMessages_kept; [done| |].
    - intros m Hm.
      assert (m ∈ kept) as Hk
        by (eapply elem_of_suffix; [exact Hm | apply suffix_drop]).
      unfold kept, newSseMessages in Hk.
      by apply list_elem_of_filter in Hk as [? _].
    - intros m Hm. apply Hle.
      eapply elem_of_suffix; [exact Hm | apply suffix_drop]. }
  rewrite Hnew.
  destruct (decide (d ≤ length history)%nat) as [Hd|Hd].
  - replace (d - length history)%nat with 0%nat by lia.
    by rewrite drop_0.
  - fold kept. rewrite Hslice, (drop_ge history d) by lia. simpl.
    apply slice_last_app_exact.
    rewrite length_drop. subst d. rewrite length_app in *. lia.
Qed.

(** C7 (amended).  Merge-on-load is idempotent on a history none of whose
    elements is newer than its last one, in particular on every history in
    ascending timestamp order (the order in which the message log returns
    it): applying the merge a second time with the same history, to the
    store the first merge produced, gives the same store, hence the same
    sequence, as applying it once. *)
Theorem merge_on_load_idempotent (cid : string) (history : list ChatMessage.t)
    (current : LiveStates) :
  ((∀ m, m ∈ history → ChatMessage.timestamp m ≤ lastHistoryTs history) →
   mergeHistory cid history (mergeHistory cid history current) =
   mergeHistory cid history current)
  ∧ (ascending history →
     mergeHistory cid history (mergeHistory cid history current) =
     mergeHistory cid history current).
Proof.
  assert ((∀ m, m ∈ history → ChatMessage.timestamp m ≤ lastHistoryTs history) →
          mergeHistory cid history (mergeHistory cid history current) =
          mergeHistory cid history current) as Hweak.
  { intros Hle. apply map_eq. intros channel.
    destruct (decide (cid = channel)) as [<-|Hne].
    - rewrite !mergeHistory_lookup.
      destruct (current !! cid) as [existing|]; [|done].
      simpl. do 2 f_equal. by apply mergedMessages_again.
    - by rewrite mergeHistory_lookup_ne. }
  split; [done|]. intros Hasc. apply Hweak.
  intros m. by apply ascending_below_last.
Qed.

Lemma merge_on_load_idempotent_witness :
  mergeHistory "c2" history300 (mergeHistory "c2" history300 storeC2) =
  mergeHistory "c2" history300 storeC2.
Proof.
  destruct (merge_on_load_idempotent "c2" history300 storeC2) as [_ Hordered].
  apply Hordered. unfold ascending. simpl. repeat constructor; lia.
Defined.

(** C7, as announced for every history, does not hold.  In the history
    below the first element (200) is newer than the last one (100).  The
    first merge leaves the two history messages and the live message stamped
    250; the second merge takes the history message stamped 200 for a live
    message newer than the cutoff and appends it again. *)
Lemma merge_twice_differs_without_order :
  let history := [historyMessage "m2" 200; historyMessage "m1" 100] in
  let once := mergeHistory "c2" history storeC2 in
  messagesOf (once !! "c2") = history ++ [live250]
  ∧ messagesOf (mergeHistory "c2" history once !! "c2")
    = history ++ [historyMessage "m2" 200; live250]
  ∧ messagesOf (mergeHistory "c2" history once !! "c2")
    ≠ messagesOf (once !! "c2").
Proof.
  intros history once. split; [by vm_compute|]. split; [by vm_compute|].
  intros Heq. apply (f_equal length) in Heq. vm_compute in Heq. discriminate Heq.
Qed.

(** The same on the sequences alone, with an empty live buffer. *)
Remark merge_again_needs_order :
  let history := [historyMessage "m2" 200; historyMessage "m1" 100] in
  mergedMessages history (mergedMessages history [])
  = history ++ [historyMessage "m2" 200].
Proof. vm_compute. reflexivity. Qed.

(** ** The cap *)

Lemma bounded_empty : bounded ∅.
Proof. intros cid. rewrite lookup_empty. simpl. lia. Qed.

Lemma pushMessage_bounded (cid : string) (m : ChatMessage.t) (prev : LiveStates) :
  bounded prev → bounded (pushMessage cid m prev).
Proof.
  intros Hb other. destruct (decide (cid = other)) as [<-|Hne].
  - rewrite pushMessage_lookup. simpl. apply slice_last_bound.
  - rewrite pushMessage_lookup_ne by done. apply Hb.
Qed.

Lemma clearTyping_bounded (cid : string) (prev : LiveStates) :
  bounded prev → bounded (clearTyping cid prev).
Proof.
  intros Hb other. destruct (decide (cid = other)) as [<-|Hne].
  - rewrite clearTyping_lookup. simpl. apply Hb.
  - rewrite clearTyping_lookup_ne by done. apply Hb.
Qed.

Lemma handleTypingState_bounded (event : TypingStateEvent.t) (prev : LiveStates) :
  bounded prev → bounded (handleTypingState event prev).
Proof.
  intros Hb other.
  destruct (decide (TypingStateEvent.channel_id event = other)) as [<-|Hne].
  - rewrite handleTypingState_lookup. simpl. apply Hb.
  - rewrite handleTypingState_lookup_ne by done. apply Hb.
Qed.

Lemma mergeHistory_bounded (cid : string) (history : list ChatMessage.t)
    (current : LiveStates) :
  bounded current → bounded (mergeHistory cid history current).
Proof.
  intros Hb other. destruct (decide (cid = other)) as [<-|Hne].
  - rewrite mergeHistory_lookup. destruct (current !! cid); simpl; [|lia].
    apply slice_last_bound.
  - rewrite mergeHistory_lookup_ne by done. apply Hb.
Qed.

Lemma loadHistory_bounded (channel : ChannelInfo.t) (prev : LiveStates) :
  bounded prev → bounded (loadHistory channel prev).1.
Proof.
  intros Hb other.
  destruct (decide (ChannelInfo.id channel = other)) as [<-|Hne].
  - rewrite loadHistory_lookup. destruct (historyLoadedOf _); apply Hb.
  - rewrite loadHistory_lookup_ne by done. apply Hb.
Qed.

Lemma effectStep_liveStates (d : Dashboard) (channel : ChannelInfo.t) :
  liveStates (effectStep d channel) = (loadHistory channel (liveStates d)).1.
Proof.
  unfold effectStep. by destruct (loadHistory channel (liveStates d)) as [ls [req|]].
Qed.

Lemma historyEffect_bounded (channels : list ChannelInfo.t) (d : Dashboard) :
  bounded (liveStates d) → bounded (liveStates (historyEffect channels d)).
Proof.
  unfold historyEffect. revert d.
  induction channels as [|channel channels IH]; intros d Hb; [done|].
  simpl. apply IH. rewrite effectStep_liveStates. by apply loadHistory_bounded.
Qed.

Section Cap.
Variable getTime : string → Z.

Lemma step_bounded (d : Dashboard) (a : Action) :
  bounded (liveStates d) → bounded (liveStates (step getTime d a)).
Proof.
  intros Hb. destruct a as [channels|event env|event env|event|cid data|cid]; simpl.
  - by apply historyEffect_bounded.
  - by apply pushMessage_bounded.
  - by apply clearTyping_bounded, pushMessage_bounded.
  - by apply handleTypingState_bounded.
  - case_decide; [|done]. by apply mergeHistory_bounded.
  - by case_decide.
Qed.

Lemma run_bounded (d : Dashboard) (actions : list Action) :
  bounded (liveStates d) → bounded (liveStates (run getTime d actions)).
Proof.
  unfold run. revert d.
  induction actions as [|a actions IH]; intros d Hb; [done|].
  simpl. by apply IH, step_bounded.
Qed.

End Cap.

(** ** Order and identities

    The store neither sorts nor removes duplicates; an update keeps a
    sequence in order and free of duplicates when its input fits. *)

Lemma ascending_snoc (l : list ChatMessage.t) (m : ChatMessage.t) :
  ascending l →
  (∀ x, last l = Some x → ChatMessage.timestamp x ≤ ChatMessage.timestamp m) →
  ascending (l ++ [m]).
Proof.
  intros Hl Hlast. unfold ascending. rewrite fmap_app. simpl.
  apply Sorted_snoc; [done|].
  destruct (last l) as [x|] eqn:Hx.
  - apply last_Some in Hx as [front ->]. rewrite fmap_app. simpl.
    apply TlRel_cons. apply Hlast. reflexivity.
  - apply last_None in Hx as ->. apply TlRel_nil.
Qed.

Lemma distinctIds_drop (n : nat) (l : list ChatMessage.t) :
  distinctIds l → distinctIds (drop n l).
Proof.
  unfold distinctIds. rewrite fmap_drop. intros Hl.
  eapply sublist_NoDup; [exact Hl | apply sublist_drop].
Qed.

Lemma append_keeps_invariant (l : list ChatMessage.t) (m : ChatMessage.t) :
  ascending l → distinctIds l →
  (∀ x, last l = Some x → ChatMessage.timestamp x ≤ ChatMessage.timestamp m) →
  ChatMessage.id m ∉ ChatMessage.id <$> l →
  ascending (slice_last MAX_MESSAGES (l ++ [m]))
  ∧ distinctIds (slice_last MAX_MESSAGES (l ++ [m])).
Proof.
  intros Hasc Hdis Hlast Hfresh. unfold slice_last. split.
  - by apply ascending_drop, ascending_snoc.
  - apply distinctIds_drop. unfold distinctIds. rewrite fmap_app. simpl.
    apply NoDup_app. split; [done|]. split; [|apply NoDup_singleton].
    intros i Hi ->%list_elem_of_singleton. done.
Qed.

Lemma merge_keeps_invariant (history live : list ChatMessage.t) :
  ascending history → distinctIds history →
  ascending live → distinctIds live →
  (∀ m, m ∈ live → lastHistoryTs history < ChatMessage.timestamp m →
        ChatMessage.id m ∉ ChatMessage.id <$> history) →
  ascending (mergedMessages history live)
  ∧ distinctIds (mergedMessages history live).
Proof.
  intros Hh Hdh Hl Hdl Hids. unfold mergedMessages, slice_last. split.
  - apply ascending_drop, ascending_app; [done| |].
    + by apply ascending_filter.
    + intros x y Hx [Hy _]%list_elem_of_filter.
      pose proof (ascending_below_last history x Hh Hx). lia.
  - apply distinctIds_drop. unfold distinctIds. rewrite fmap_app.
    apply NoDup_app. split; [done|]. split.
    + intros i Hi (m & -> & [Hnew Hm]%list_elem_of_filter)%list_elem_of_fmap.
      by apply (Hids m Hm Hnew).
    + eapply sublist_NoDup; [exact Hdl|].
      apply fmap_sublist, sublist_filter.
Qed.

Lemma loadHistory_messages (channel : ChannelInfo.t) (prev : LiveStates)
    (cid : string) :
  messagesOf ((loadHistory channel prev).1 !! cid) = messagesOf (prev !! cid).
Proof.
  destruct (decide (ChannelInfo.id channel = cid)) as [<-|Hne].
  - rewrite loadHistory_lookup. by destruct (historyLoadedOf _).
  - by rewrite loadHistory_lookup_ne.
Qed.

Lemma historyEffect_messages (channels : list ChannelInfo.t) (d : Dashboard)
    (cid : string) :
  messagesOf (liveStates (historyEffect channels d) !! cid) =
  messagesOf (liveStates d !! cid).
Proof.
  unfold historyEffect. revert d.
  induction channels as [|channel channels IH]; intros d; [done|].
  simpl. by rewrite IH, effectStep_liveStates, loadHistory_messages.
Qed.

Lemma pushMessage_messages (target : string) (m : ChatMessage.t)
    (prev : LiveStates) (cid : string) :
  messagesOf (pushMessage target m prev !! cid) =
  if decide (target = cid)
  then slice_last MAX_MESSAGES (messagesOf (prev !! cid) ++ [m])
  else messagesOf (prev !! cid).
Proof.
  case_decide as Hc.
  - subst. by rewrite pushMessage_lookup.
  - by rewrite pushMessage_lookup_ne.
Qed.

Lemma clearTyping_messages (target : string) (prev : LiveStates) (cid : string) :
  messagesOf (clearTyping target prev !! cid) = messagesOf (prev !! cid).
Proof.
  destruct (decide (target = cid)) as [<-|Hne].
  - by rewrite clearTyping_lookup.
  - by rewrite clearTyping_lookup_ne.
Qed.

Lemma handleTypingState_messages (event : TypingStateEvent.t)
    (prev : LiveStates) (cid : string) :
  messagesOf (handleTypingState event prev !! cid) = messagesOf (prev !! cid).
Proof.
  destruct (decide (TypingStateEvent.channel_id event = cid)) as [<-|Hne].
  - by rewrite handleTypingState_lookup.
  - by rewrite handleTypingState_lookup_ne.
Qed.

Lemma mergeHistory_messages (target : string) (history : list ChatMessage.t)
    (current : LiveStates) (cid : string) :
  messagesOf (mergeHistory target history current !! cid) =
  if decide (target = cid ∧ is_Some (current !! cid))
  then mergedMessages history (messagesOf (current !! cid))
  else messagesOf (current !! cid).
Proof.
  destruct (decide (target = cid)) as [<-|Hne].
  - rewrite mergeHistory_lookup. destruct (current !! target) as [existing|]; simpl.
    + rewrite decide_True; [done|]. split; [done|by eexists].
    + rewrite decide_False; [done|]. intros [_ [? ?]]. done.
  - rewrite mergeHistory_lookup_ne by done.
    rewrite decide_False; [done|]. by intros [? _].
Qed.

Section Sequence.
Variable getTime : string → Z.

(** What a step does to the sequence of a channel. *)
Lemma step_messages (d : Dashboard) (a : Action) (cid : string) :
  let before := messagesOf (liveStates d !! cid) in
  let after := messagesOf (liveStates (step getTime d a) !! cid) in
  after = before
  ∨ (∃ event env, a = InboundMessage event env
       ∧ InboundMessageEvent.channel_id event = cid
       ∧ after = slice_last MAX_MESSAGES
                   (before ++ [inboundChatMessage event env]))
  ∨ (∃ event env, a = OutboundMessage event env
       ∧ OutboundMessageEvent.channel_id event = cid
       ∧ after = slice_last MAX_MESSAGES
                   (before ++ [outboundChatMessage event env]))
  ∨ (∃ data, a = HistoryResolved cid data
       ∧ after = mergedMessages (toHistory getTime data) before).
Proof.
  intros before after. subst before after.
  destruct a as [channels|event env|event env|event|c data|c]; simpl.
  - left. apply historyEffect_messages.
  - unfold handleInboundMessage. rewrite pushMessage_messages.
    case_decide; [|by left]. right. left. by exists event, env.
  - unfold handleOutboundMessage.
    rewrite clearTyping_messages, pushMessage_messages.
    case_decide; [|by left]. right. right. left. by exists event, env.
  - left. apply handleTypingState_messages.
  - case_decide; [|by left]. simpl. rewrite mergeHistory_messages.
    case_decide as Hc; [|by left]. destruct Hc as [-> _].
    right. right. right. by exists data.
  - left. by case_decide.
Qed.

End Sequence.




(** ** The typing indicator and the load marker under each update *)

Lemma loadHistory_isTyping (channel : ChannelInfo.t) (prev : LiveStates)
    (cid : string) :
  isTypingOf ((loadHistory channel prev).1 !! cid) = isTypingOf (prev !! cid).
Proof.
  destruct (decide (ChannelInfo.id channel = cid)) as [<-|Hne].
  - rewrite loadHistory_lookup. by destruct (historyLoadedOf _).
  - by rewrite loadHistory_lookup_ne.
Qed.

Lemma loadHistory_historyLoaded (channel : ChannelInfo.t) (prev : LiveStates)
    (cid : string) :
  historyLoadedOf ((loadHistory channel prev).1 !! cid) =
  historyLoadedOf (prev !! cid) || bool_decide (ChannelInfo.id channel = cid).
Proof.
  case_bool_decide as Hc.
  - subst. rewrite loadHistory_lookup.
    destruct (historyLoadedOf (prev !! _)) eqn:Hl; [by rewrite Hl|done].
  - rewrite loadHistory_lookup_ne by done. by rewrite orb_false_r.
Qed.

Lemma pushMessage_isTyping (target : string) (m : ChatMessage.t)
    (prev : LiveStates) (cid : string) :
  isTypingOf (pushMessage target m prev !! cid) = isTypingOf (prev !! cid).
Proof.
  destruct (decide (target = cid)) as [<-|Hne].
  - by rewrite pushMessage_lookup.
  - by rewrite pushMessage_lookup_ne.
Qed.

Lemma pushMessage_historyLoaded (target : string) (m : ChatMessage.t)
    (prev : LiveStates) (cid : string) :
  historyLoadedOf (pushMessage target m prev !! cid) =
  historyLoadedOf (prev !! cid).
Proof.
  destruct (decide (target = cid)) as [<-|Hne].
  - by rewrite pushMessage_lookup.
  - by rewrite pushMessage_lookup_ne.
Qed.

Lemma clearTyping_historyLoaded (target : string) (prev : LiveStates)
    (cid : string) :
  historyLoadedOf (clearTyping target prev !! cid) = historyLoadedOf (prev !! cid).
Proof.
  destruct (decide (target = cid)) as [<-|Hne].
  - by rewrite clearTyping_lookup.
  - by rewrite clearTyping_lookup_ne.
Qed.

Lemma handleTypingState_historyLoaded (event : TypingStateEvent.t)
    (prev : LiveStates) (cid : string) :
  historyLoadedOf (handleTypingState event prev !! cid) =
  historyLoadedOf (prev !! cid).
Proof.
  destruct (decide (TypingStateEvent.channel_id event = cid)) as [<-|Hne].
  - by rewrite handleTypingState_lookup.
  - by rewrite handleTypingState_lookup_ne.
Qed.

Lemma mergeHistory_isTyping (target : string) (history : list ChatMessage.t)
    (current : LiveStates) (cid : string) :
  isTypingOf (mergeHistory target history current !! cid) =
  isTypingOf (current !! cid).
Proof.
  destruct (decide (target = cid)) as [<-|Hne].
  - rewrite mergeHistory_lookup. by destruct (current !! target).
  - by rewrite mergeHistory_lookup_ne.
Qed.

Lemma mergeHistory_historyLoaded (target : string) (history : list ChatMessage.t)
    (current : LiveStates) (cid : string) :
  historyLoadedOf (mergeHistory target history current !! cid) =
  historyLoadedOf (current !! cid).
Proof.
  destruct (decide (target = cid)) as [<-|Hne].
  - rewrite mergeHistory_lookup. by destruct (current !! target).
  - by rewrite mergeHistory_lookup_ne.
Qed.

Lemma historyEffect_isTyping (channels : list ChannelInfo.t) (d : Dashboard)
    (cid : string) :
  isTypingOf (liveStates (historyEffect channels d) !! cid) =
  isTypingOf (liveStates d !! cid).
Proof.
  unfold historyEffect. revert d.
  induction channels as [|channel channels IH]; intros d; [done|].
  simpl. by rewrite IH, effectStep_liveStates, loadHistory_isTyping.
Qed.

Lemma historyEffect_historyLoaded (channels : list ChannelInfo.t) (d : Dashboard)
    (cid : string) :
  historyLoadedOf (liveStates (historyEffect channels d) !! cid) =
  historyLoadedOf (liveStates d !! cid)
  || bool_decide (cid ∈ ChannelInfo.id <$> channels).
Proof.
  unfold historyEffect. revert d.
  induction channels as [|channel channels IH]; intros d.
  - rewrite bool_decide_eq_false_2; [by rewrite orb_false_r|].
    apply not_elem_of_nil.
  - cbn [foldl]. rewrite IH, effectStep_liveStates, loadHistory_historyLoaded.
    rewrite <- orb_assoc. f_equal.
    apply eq_true_iff_eq. rewrite orb_true_iff, !bool_decide_eq_true.
    rewrite fmap_cons, elem_of_cons.
    split; (intros [?|?]; [left; congruence | by right]).
Qed.

Section Indicators.
Variable getTime : string → Z.

(** Only a [typing_state] or an [outbound_message] event of the channel
    writes its indicator. *)
Lemma step_isTyping (d : Dashboard) (a : Action) (cid : string) :
  writesTyping cid a = false →
  isTypingOf (liveStates (step getTime d a) !! cid) =
  isTypingOf (liveStates d !! cid).
Proof.
  destruct a as [channels|event env|event env|event|c data|c]; simpl; intros Hw.
  - apply historyEffect_isTyping.
  - apply pushMessage_isTyping.
  - apply bool_decide_eq_false in Hw. unfold handleOutboundMessage.
    by rewrite clearTyping_lookup_ne, pushMessage_isTyping.
  - apply bool_decide_eq_false in Hw. by rewrite handleTypingState_lookup_ne.
  - case_decide; [|done]. simpl. apply mergeHistory_isTyping.
  - by case_decide.
Qed.

Lemma run_isTyping (d : Dashboard) (actions : list Action) (cid : string) :
  forallb (λ a, negb (writesTyping cid a)) actions = true →
  isTypingOf (liveStates (run getTime d actions) !! cid) =
  isTypingOf (liveStates d !! cid).
Proof.
  unfold run. revert d.
  induction actions as [|a actions IH]; intros d Hall; [done|].
  simpl in Hall. apply andb_true_iff in Hall as [Ha Hall].
  simpl. rewrite IH by done. apply step_isTyping. by destruct (writesTyping cid a).
Qed.

(** No step takes the marker of a channel back. *)
Lemma step_historyLoaded (d : Dashboard) (a : Action) (cid : string) :
  historyLoadedOf (liveStates d !! cid) = true →
  historyLoadedOf (liveStates (step getTime d a) !! cid) = true.
Proof.
  intros Hl.
  destruct a as [channels|event env|event env|event|c data|c]; simpl.
  - by rewrite historyEffect_historyLoaded, Hl.
  - unfold handleInboundMessage. by rewrite pushMessage_historyLoaded.
  - unfold handleOutboundMessage.
    by rewrite clearTyping_historyLoaded, pushMessage_historyLoaded.
  - by rewrite handleTypingState_historyLoaded.
  - case_decide; [|done]. simpl. by rewrite mergeHistory_historyLoaded.
  - by case_decide.
Qed.

Lemma run_historyLoaded (d : Dashboard) (actions : list Action) (cid : string) :
  historyLoadedOf (liveStates d !! cid) = true →
  historyLoadedOf (liveStates (run getTime d actions) !! cid) = true.
Proof.
  unfold run. revert d.
  induction actions as [|a actions IH]; intros d Hl; [done|].
  simpl. by apply IH, step_historyLoaded.
Qed.

End Indicators.

(** C3.  A [typing_state] event sets the indicator of its channel to the
    event's value, whatever it was; an [outbound_message] event sets it to
    false; an [inbound_message] event leaves every indicator as it is.
    Hence, after [typing_state] with [is_typing = true] the indicator reads
    true, and keeps doing so across events that do not write it; and after
    any later [outbound_message] for the channel it reads false, whatever
    happened in between. *)
Theorem typing_indicator_transitions (getTime : string → Z) (d : Dashboard)
    (typing : TypingStateEvent.t) (unrelated between : list Action)
    (outbound : OutboundMessageEvent.t) (env : Arrival) :
  let cid := TypingStateEvent.channel_id typing in
  TypingStateEvent.is_typing typing = true →
  forallb (λ a, negb (writesTyping cid a)) unrelated = true →
  OutboundMessageEvent.channel_id outbound = cid →
  (∀ event prev,
     isTypingOf (handleTypingState event prev !! TypingStateEvent.channel_id event)
     = TypingStateEvent.is_typing event)
  ∧ (∀ event arrival prev,
       isTypingOf (handleOutboundMessage event arrival prev
                     !! OutboundMessageEvent.channel_id event) = false)
  ∧ (∀ event arrival prev channel,
       isTypingOf (handleInboundMessage event arrival prev !! channel)
       = isTypingOf (prev !! channel))
  ∧ isTypingOf (liveStates (run getTime (step getTime d (TypingState typing))
                              unrelated) !! cid) = true
  ∧ isTypingOf (liveStates
                  (step getTime
                     (run getTime (step getTime d (TypingState typing)) between)
                     (OutboundMessage outbound env)) !! cid) = false.
Proof.
  intros cid Hon Hunrelated Hout. repeat split.
  - intros event prev. by rewrite handleTypingState_lookup.
  - intros event arrival prev. by rewrite handleOutboundMessage_lookup.
  - intros event arrival prev channel. apply pushMessage_isTyping.
  - rewrite run_isTyping by done. simpl. subst cid.
    by rewrite handleTypingState_lookup.
  - simpl. rewrite <- Hout. by rewrite handleOutboundMessage_lookup.
Qed.

Lemma typing_indicator_transitions_witness :
  isTypingOf (liveStates
                (run scenarioGetTime
                   (step scenarioGetTime initialDashboard
                      (TypingState (typingC2 true)))
                   [InboundMessage inboundC2 arrival250;
                    InboundMessage inboundC1 arrival400]) !! "c2") = true
  ∧ isTypingOf (liveStates
                  (step scenarioGetTime
                     (run scenarioGetTime
                        (step scenarioGetTime initialDashboard
                           (TypingState (typingC2 true)))
                        [TypingState (typingC2 false);
                         TypingState (typingC2 true)])
                     (OutboundMessage outboundC2 arrival400)) !! "c2") = false.
Proof.
  destruct (typing_indicator_transitions scenarioGetTime initialDashboard
              (typingC2 true)
              [InboundMessage inboundC2 arrival250;
               InboundMessage inboundC1 arrival400]
              [TypingState (typingC2 false); TypingState (typingC2 true)]
              outboundC2 arrival400)
    as (_ & _ & _ & Htrue & Hfalse); [reflexivity..|].
  split; [exact Htrue | exact Hfalse].
Defined.

(** C5.  The load marker of a channel only moves forward: once it is set,
    no store operation (the history effect, an appended message, a typing
    update, the clearing on an outbound message, a merge, a failed load)
    and no sequence of them makes it read unset again. *)
Theorem load_marker_monotone (getTime : string → Z) (d : Dashboard)
    (cid : string) :
  historyLoadedOf (liveStates d !! cid) = true →
  (∀ a, historyLoadedOf (liveStates (step getTime d a) !! cid) = true)
  ∧ (∀ actions,
       historyLoadedOf (liveStates (run getTime d actions) !! cid) = true).
Proof.
  intros Hl. split.
  - intros a. by apply step_historyLoaded.
  - intros actions. by apply run_historyLoaded.
Qed.

Lemma load_marker_monotone_witness :
  let d := step scenarioGetTime initialDashboard (ChannelsChanged [channelC2]) in
  (∀ a, historyLoadedOf (liveStates (step scenarioGetTime d a) !! "c2") = true)
  ∧ (∀ actions,
       historyLoadedOf (liveStates (run scenarioGetTime d actions) !! "c2")
       = true).
Proof.
  apply (load_marker_monotone scenarioGetTime
           (step scenarioGetTime initialDashboard (ChannelsChanged [channelC2]))
           "c2").
  reflexivity.
Defined.

(** C10.  Each handler writes the entry of the event's channel only: the
    state of any other channel is what it was.  In the channel itself, a
    [typing_state] event leaves the message sequence and the load marker as
    they read before, and an [inbound_message] event leaves the typing
    indicator and the load marker as they read before. *)
Theorem handlers_confined_to_channel (inbound : InboundMessageEvent.t)
    (outbound : OutboundMessageEvent.t) (typing : TypingStateEvent.t)
    (env : Arrival) (prev : LiveStates) (other : string) :
  (InboundMessageEvent.channel_id inbound ≠ other →
   handleInboundMessage inbound env prev !! other = prev !! other)
  ∧ (OutboundMessageEvent.channel_id outbound ≠ other →
     handleOutboundMessage outbound env prev !! other = prev !! other)
  ∧ (TypingStateEvent.channel_id typing ≠ other →
     handleTypingState typing prev !! other = prev !! other)
  ∧ (let cid := TypingStateEvent.channel_id typing in
     messagesOf (handleTypingState typing prev !! cid) = messagesOf (prev !! cid)
     ∧ historyLoadedOf (handleTypingState typing prev !! cid)
       = historyLoadedOf (prev !! cid))
  ∧ (let cid := InboundMessageEvent.channel_id inbound in
     isTypingOf (handleInboundMessage inbound env prev !! cid)
     = isTypingOf (prev !! cid)
     ∧ historyLoadedOf (handleInboundMessage inbound env prev !! cid)
       = historyLoadedOf (prev !! cid)).
Proof.
  repeat split.
  - apply pushMessage_lookup_ne.
  - apply handleOutboundMessage_lookup_ne.
  - apply handleTypingState_lookup_ne.
  - apply handleTypingState_messages.
  - apply handleTypingState_historyLoaded.
  - apply pushMessage_isTyping.
  - apply pushMessage_historyLoaded.
Qed.

Lemma handlers_confined_to_channel_witness :
  handleInboundMessage inboundC2 arrival250 storeC2 !! "c1" = storeC2 !! "c1"
  ∧ handleOutboundMessage outboundC2 arrival400 storeC2 !! "c1" = storeC2 !! "c1"
  ∧ handleTypingState (typingC2 true) storeC2 !! "c1" = storeC2 !! "c1".
Proof.
  destruct (handlers_confined_to_channel inboundC2 outboundC2 (typingC2 true)
              arrival250 storeC2 "c1") as (Hin & _).
  destruct (handlers_confined_to_channel inboundC2 outboundC2 (typingC2 true)
              arrival400 storeC2 "c1") as (_ & Hout & Hty & _).
  split; [apply Hin; discriminate|].
  split; [apply Hout; discriminate | apply Hty; discriminate].
Defined.

(** ** History requests *)

Lemma requestCount_snoc (cid : string) (ls : LiveStates)
    (reqs : list HistoryRequest) (pend : list string) (req : HistoryRequest) :
  requestCount cid {| liveStates := ls; requests := reqs ++ [req]; pending := pend |}
  = (length (filter (λ r, req_channel r = cid) reqs)
     + Nat.b2n (bool_decide (req_channel req = cid)))%nat.
Proof.
  unfold requestCount. simpl. rewrite filter_app, length_app. f_equal.
  rewrite filter_cons, filter_nil. case_bool_decide as Hc.
  - by rewrite decide_True.
  - by rewrite decide_False.
Qed.

Lemma effectStep_requestCount (d : Dashboard) (channel : ChannelInfo.t)
    (cid : string) :
  requestCount cid (effectStep d channel) =
  (requestCount cid d
   + Nat.b2n (negb (historyLoadedOf (liveStates d !! cid))
              && bool_decide (ChannelInfo.id channel = cid)))%nat.
Proof.
  unfold effectStep, loadHistory.
  destruct (historyLoadedOf (liveStates d !! ChannelInfo.id channel)) eqn:Hl.
  - unfold requestCount. simpl. case_bool_decide as Hc.
    + subst. rewrite Hl. simpl. lia.
    + rewrite andb_false_r. simpl. lia.
  - rewrite requestCount_snoc. simpl. unfold requestCount. f_equal.
    case_bool_decide as Hc; [|by rewrite andb_false_r].
    subst. by rewrite Hl.
Qed.

Lemma historyEffect_requestCount (channels : list ChannelInfo.t) (d : Dashboard)
    (cid : string) :
  requestCount cid (historyEffect channels d) =
  (requestCount cid d
   + Nat.b2n (negb (historyLoadedOf (liveStates d !! cid))
              && bool_decide (cid ∈ ChannelInfo.id <$> channels)))%nat.
Proof.
  unfold historyEffect. revert d.
  induction channels as [|channel channels IH]; intros d.
  - rewrite bool_decide_eq_false_2 by apply not_elem_of_nil.
    rewrite andb_false_r. simpl. lia.
  - cbn [foldl]. rewrite IH, effectStep_requestCount.
    rewrite effectStep_liveStates, loadHistory_historyLoaded.
    rewrite <- Nat.add_assoc. f_equal. rewrite fmap_cons.
    destruct (historyLoadedOf (liveStates d !! cid));
      cbn [negb andb orb Nat.b2n]; [done|].
    destruct (decide (ChannelInfo.id channel = cid)) as [Hc|Hc].
    + rewrite (bool_decide_eq_true_2 _ Hc). cbn [negb andb orb Nat.b2n].
      rewrite bool_decide_eq_true_2; [done|]. subst. by left.
    + rewrite (bool_decide_eq_false_2 _ Hc). cbn [negb andb orb Nat.b2n].
      apply (f_equal Nat.b2n), eq_true_iff_eq.
      rewrite !bool_decide_eq_true, elem_of_cons.
      split; [by right | by intros [?|?]].
Qed.

Lemma effectStep_pendingCount (d : Dashboard) (channel : ChannelInfo.t)
    (cid : string) :
  pendingCount cid (effectStep d channel) =
  (pendingCount cid d
   + Nat.b2n (negb (historyLoadedOf (liveStates d !! cid))
              && bool_decide (ChannelInfo.id channel = cid)))%nat.
Proof.
  unfold effectStep, loadHistory, pendingCount.
  destruct (historyLoadedOf (liveStates d !! ChannelInfo.id channel)) eqn:Hl; simpl.
  - destruct (decide (ChannelInfo.id channel = cid)) as [Hc|Hc].
    + subst. rewrite Hl. simpl. lia.
    + rewrite (bool_decide_eq_false_2 _ Hc), andb_false_r. simpl. lia.
  - rewrite filter_cons.
    destruct (decide (ChannelInfo.id channel = cid)) as [Hc|Hc].
    + rewrite (bool_decide_eq_true_2 _ Hc). subst. rewrite Hl. simpl. lia.
    + rewrite (bool_decide_eq_false_2 _ Hc), andb_false_r. simpl. lia.
Qed.

Lemma effectStep_accounted (d : Dashboard) (channel : ChannelInfo.t) :
  requestsAccounted d → requestsAccounted (effectStep d channel).
Proof.
  intros Hinv cid. destruct (Hinv cid) as [Hp Hr].
  rewrite effectStep_pendingCount, effectStep_requestCount.
  rewrite effectStep_liveStates, loadHistory_historyLoaded.
  split; [lia|].
  destruct (historyLoadedOf (liveStates d !! cid)); simpl in *; [lia|].
  destruct (bool_decide _); simpl; lia.
Qed.

Lemma historyEffect_accounted (channels : list ChannelInfo.t) (d : Dashboard) :
  requestsAccounted d → requestsAccounted (historyEffect channels d).
Proof.
  unfold historyEffect. revert d.
  induction channels as [|channel channels IH]; intros d Hinv; [done|].
  cbn [foldl]. by apply IH, effectStep_accounted.
Qed.

Lemma settle_count (c cid : string) (l : list string) :
  (length (filter (λ x, x = cid) (settle c l))
   ≤ length (filter (λ x, x = cid) l))%nat.
Proof.
  induction l as [|x l IH]; [done|].
  simpl. case_decide as Hx.
  - rewrite filter_cons. case_decide; simpl; lia.
  - rewrite !filter_cons. case_decide; simpl; lia.
Qed.

Lemma settle_count_own (cid : string) (l : list string) :
  cid ∈ l →
  S (length (filter (λ x, x = cid) (settle cid l)))
  = length (filter (λ x, x = cid) l).
Proof.
  induction l as [|x l IH]; [by intros ?%elem_of_nil|].
  intros Hin. simpl. case_decide as Hx.
  - subst. rewrite filter_cons. by rewrite decide_True.
  - rewrite !filter_cons. repeat case_decide; try done.
    apply IH. apply elem_of_cons in Hin as [?|?]; [congruence|done].
Qed.

Lemma count_positive (cid : string) (l : list string) :
  cid ∈ l → (0 < length (filter (λ x, x = cid) l))%nat.
Proof.
  intros Hin.
  assert (cid ∈ filter (λ x, x = cid) l) as Hf by by apply list_elem_of_filter.
  destruct (filter (λ x, x = cid) l); [by apply elem_of_nil in Hf|simpl; lia].
Qed.

Section Requests.
Variable getTime : string → Z.

Lemma step_requestCount (d : Dashboard) (a : Action) (cid : string) :
  requestCount cid (step getTime d a) =
  (requestCount cid d + requestsIssued cid d a)%nat.
Proof.
  destruct a as [channels|event env|event env|event|c data|c]; simpl;
    try (unfold requestCount; simpl; lia).
  - apply historyEffect_requestCount.
  - case_decide; unfold requestCount; simpl; lia.
  - case_decide; unfold requestCount; simpl; lia.
Qed.

Lemma accounted_same_requests (d d' : Dashboard) :
  requestsAccounted d →
  requests d' = requests d →
  (∀ cid, (pendingCount cid d' ≤ pendingCount cid d)%nat) →
  (∀ cid, historyLoadedOf (liveStates d !! cid) = true →
          historyLoadedOf (liveStates d' !! cid) = true) →
  requestsAccounted d'.
Proof.
  intros Hinv Hreq Hpend Hloaded cid. destruct (Hinv cid) as [Hp Hr].
  specialize (Hpend cid). specialize (Hloaded cid).
  unfold requestCount in *. rewrite Hreq. split; [lia|].
  destruct (historyLoadedOf (liveStates d !! cid)); simpl in Hr.
  - by rewrite Hloaded.
  - lia.
Qed.

Lemma step_accounted (d : Dashboard) (a : Action) :
  requestsAccounted d → requestsAccounted (step getTime d a).
Proof.
  intros Hinv.
  destruct a as [channels|event env|event env|event|c data|c];
    [by apply historyEffect_accounted|..];
    (apply (accounted_same_requests d);
     [done | | | intros cid; apply step_historyLoaded]);
    simpl; try done; try (by case_decide);
    intros cid; unfold pendingCount; simpl; try done;
    (case_decide; [|done]); apply settle_count.
Qed.

Lemma run_accounted (d : Dashboard) (actions : list Action) :
  requestsAccounted d → requestsAccounted (run getTime d actions).
Proof.
  unfold run. revert d.
  induction actions as [|a actions IH]; intros d Hinv; [done|].
  simpl. by apply IH, step_accounted.
Qed.

Lemma initial_accounted : requestsAccounted initialDashboard.
Proof. intros cid. by vm_compute. Qed.

(** With the marker set, nothing issues a request for the channel. *)
Lemma run_requestCount_loaded (d : Dashboard) (actions : list Action)
    (cid : string) :
  historyLoadedOf (liveStates d !! cid) = true →
  requestCount cid (run getTime d actions) = requestCount cid d.
Proof.
  unfold run. revert d.
  induction actions as [|a actions IH]; intros d Hl; [done|].
  simpl. rewrite IH by by apply step_historyLoaded.
  rewrite step_requestCount.
  destruct a; simpl; try lia. rewrite Hl. simpl. lia.
Qed.

End Requests.

(** C8.  Over the life of the dashboard at most one history request is
    issued per channel.  The effect issues the request the first time it
    meets the channel with its marker unset, and exactly one then, however
    often the channel occurs in the list; after the effect has met the
    channel, nothing that follows (further runs of the effect on refreshed
    channel lists included) issues another. *)
Theorem one_history_request_per_channel (getTime : string → Z)
    (actions : list Action) (cid : string) :
  let d := run getTime initialDashboard actions in
  (requestCount cid d ≤ 1)%nat
  ∧ (∀ channels,
       cid ∈ ChannelInfo.id <$> channels →
       historyLoadedOf (liveStates d !! cid) = false →
       requestCount cid d = 0%nat
       ∧ requestCount cid (step getTime d (ChannelsChanged channels)) = 1%nat)
  ∧ (∀ channels more,
       cid ∈ ChannelInfo.id <$> channels →
       let seen := step getTime d (ChannelsChanged channels) in
       requestCount cid (run getTime seen more) = requestCount cid seen).
Proof.
  intros d.
  assert (requestsAccounted d) as Hinv
    by apply run_accounted, initial_accounted.
  destruct (Hinv cid) as [_ Hr]. split; [|split].
  - destruct (historyLoadedOf (liveStates d !! cid)); simpl in Hr; lia.
  - intros channels Hin Hl. rewrite Hl in Hr. simpl in Hr.
    split; [lia|]. rewrite step_requestCount. simpl.
    rewrite Hl, bool_decide_eq_true_2 by done. simpl. lia.
  - intros channels more Hin seen. apply run_requestCount_loaded.
    subst seen. simpl. rewrite historyEffect_historyLoaded.
    rewrite (bool_decide_eq_true_2 _ Hin). apply orb_true_r.
Qed.

Lemma one_history_request_per_channel_witness :
  let d := run scenarioGetTime initialDashboard
             [InboundMessage inboundC2 arrival250] in
  requestCount "c2" (step scenarioGetTime d
                       (ChannelsChanged [channelC2; channelC2])) = 1%nat
  ∧ requestCount "c2"
      (run scenarioGetTime
         (step scenarioGetTime d (ChannelsChanged [channelC2; channelC2]))
         [ChannelsChanged [channelC2]; HistoryRejected "c2";
          ChannelsChanged [channelC2]])
    = requestCount "c2"
        (step scenarioGetTime d (ChannelsChanged [channelC2; channelC2])).
Proof.
  intros d.
  destruct (one_history_request_per_channel scenarioGetTime
              [InboundMessage inboundC2 arrival250] "c2")
    as (_ & Hfirst & Hlater).
  split.
  - apply Hfirst; [cbn; left | reflexivity].
  - apply Hlater. cbn. left.
Defined.

(** ** A load that fails *)

Lemma historyEffect_pendingCount (channels : list ChannelInfo.t) (d : Dashboard)
    (cid : string) :
  historyLoadedOf (liveStates d !! cid) = true →
  pendingCount cid (historyEffect channels d) = pendingCount cid d.
Proof.
  unfold historyEffect. revert d.
  induction channels as [|channel channels IH]; intros d Hl; [done|].
  cbn [foldl]. rewrite IH.
  - rewrite effectStep_pendingCount, Hl. simpl. lia.
  - by rewrite effectStep_liveStates, loadHistory_historyLoaded, Hl.
Qed.

Lemma elem_of_settle (c cid : string) (l : list string) :
  cid ∈ settle c l → cid ∈ l.
Proof.
  induction l as [|x l IH]; [done|].
  simpl. case_decide.
  - by right.
  - intros [->|Hin]%elem_of_cons; [by left | right; by apply IH].
Qed.

Lemma count_positive_inv (cid : string) (l : list string) :
  (0 < length (filter (λ x, x = cid) l))%nat → cid ∈ l.
Proof.
  intros Hpos. destruct (filter (λ x, x = cid) l) as [|x k] eqn:Hf.
  - simpl in Hpos. lia.
  - assert (x ∈ filter (λ x, x = cid) l) as Hx by (rewrite Hf; left).
    by apply list_elem_of_filter in Hx as [-> ?].
Qed.

Section FailedLoad.
Variable getTime : string → Z.

(** While the request of a channel is outstanding (or none was issued), and
    no message event of the channel has been handled, its sequence is
    empty. *)
Lemma quiet_sequence_empty (actions : list Action) (cid : string) :
  quietFor cid actions = true →
  let d := run getTime initialDashboard actions in
  cid ∈ pending d ∨ requestCount cid d = 0%nat →
  messagesOf (liveStates d !! cid) = [].
Proof.
  unfold quietFor, run.
  induction actions as [|a actions IH] using rev_ind; [done|].
  rewrite forallb_app, foldl_app. simpl. rewrite andb_true_r.
  intros [Hquiet Ha]%andb_true_iff. specialize (IH Hquiet). simpl in IH.
  fold (run getTime initialDashboard actions) in *.
  set (d := run getTime initialDashboard actions) in *.
  assert (requestsAccounted d) as Hinv by apply run_accounted, initial_accounted.
  destruct (Hinv cid) as [Hp Hr].
  apply negb_true_iff in Ha.
  destruct a as [channels|event env|event env|event|c data|c]; simpl in *.
  - rewrite historyEffect_messages. intros Hprem. apply IH.
    destruct (historyLoadedOf (liveStates d !! cid)) eqn:Hl; [|right; simpl in Hr; lia].
    destruct Hprem as [Hin|Hzero].
    + left. apply count_positive_inv. apply count_positive in Hin.
      fold (pendingCount cid (historyEffect channels d)) in Hin.
      rewrite historyEffect_pendingCount in Hin by done. exact Hin.
    + rewrite historyEffect_requestCount in Hzero. right. lia.
  - apply bool_decide_eq_false in Ha. unfold handleInboundMessage.
    by rewrite pushMessage_lookup_ne.
  - apply bool_decide_eq_false in Ha.
    by rewrite handleOutboundMessage_lookup_ne.
  - by rewrite handleTypingState_messages.
  - case_decide as Hpend; [|done]. simpl.
    destruct (decide (c = cid)) as [->|Hne].
    + intros [Hin|Hzero].
      * apply count_positive in Hin.
        pose proof (settle_count_own cid (pending d) Hpend) as Hown.
        unfold pendingCount in Hp.
        destruct (historyLoadedOf (liveStates d !! cid)); simpl in Hr; lia.
      * apply count_positive in Hpend. unfold pendingCount, requestCount in *.
        simpl in Hzero. lia.
    + rewrite mergeHistory_lookup_ne by done. intros [Hin|Hzero]; apply IH.
      * left. by eapply elem_of_settle.
      * by right.
  - case_decide as Hpend; [|done]. simpl. intros [Hin|Hzero]; apply IH.
    + left. by eapply elem_of_settle.
    + by right.
Qed.

End FailedLoad.

(** C4.  When the history request of a channel fails, nothing in the store
    changes: the channel's sequence is exactly what it was, and it is empty
    if no message event of the channel was handled so far.  The channel's
    marker reads loaded.  One request was issued for the channel and no
    later action issues another.  Message events that arrive afterwards are
    still appended to the channel's sequence. *)
Theorem failed_load_keeps_live_state (getTime : string → Z)
    (actions : list Action) (cid : string) :
  let d := run getTime initialDashboard actions in
  cid ∈ pending d →
  let failed := step getTime d (HistoryRejected cid) in
  liveStates failed = liveStates d
  ∧ (quietFor cid actions = true → messagesOf (liveStates failed !! cid) = [])
  ∧ historyLoadedOf (liveStates failed !! cid) = true
  ∧ requestCount cid failed = 1%nat
  ∧ (∀ more, requestCount cid (run getTime failed more) = 1%nat)
  ∧ (∀ more event env,
       InboundMessageEvent.channel_id event = cid →
       let later := run getTime failed more in
       messagesOf (liveStates (step getTime later (InboundMessage event env)) !! cid)
       = slice_last MAX_MESSAGES
           (messagesOf (liveStates later !! cid) ++ [inboundChatMessage event env]))
  ∧ (∀ more event env,
       OutboundMessageEvent.channel_id event = cid →
       let later := run getTime failed more in
       messagesOf (liveStates (step getTime later (OutboundMessage event env)) !! cid)
       = slice_last MAX_MESSAGES
           (messagesOf (liveStates later !! cid) ++ [outboundChatMessage event env])).
Proof.
  intros d Hpend failed.
  assert (requestsAccounted d) as Hinv by apply run_accounted, initial_accounted.
  destruct (Hinv cid) as [Hp Hr].
  pose proof (count_positive cid (pending d) Hpend) as Hpos.
  fold (pendingCount cid d) in Hpos.
  assert (historyLoadedOf (liveStates d !! cid) = true) as Hl.
  { destruct (historyLoadedOf (liveStates d !! cid)); [done|]. simpl in Hr. lia. }
  rewrite Hl in Hr. simpl in Hr.
  assert (liveStates failed = liveStates d) as Hsame.
  { subst failed. simpl. by rewrite decide_True. }
  assert (requestCount cid failed = 1%nat) as Hone.
  { subst failed. rewrite step_requestCount. simpl. lia. }
  split; [done|]. rewrite Hsame.
  split; [intros Hquiet; apply (quiet_sequence_empty getTime); auto|].
  split; [done|]. split; [done|].
  split; [|split].
  - intros more. rewrite run_requestCount_loaded; [done|]. by rewrite Hsame.
  - intros more event env <- later. simpl. unfold handleInboundMessage.
    by rewrite pushMessage_lookup.
  - intros more event env <- later. simpl.
    by rewrite handleOutboundMessage_lookup.
Qed.

Lemma failed_load_keeps_live_state_witness :
  let d := run scenarioGetTime initialDashboard [ChannelsChanged [channelC2]] in
  let failed := step scenarioGetTime d (HistoryRejected "c2") in
  messagesOf (liveStates failed !! "c2") = []
  ∧ historyLoadedOf (liveStates failed !! "c2") = true
  ∧ requestCount "c2"
      (run scenarioGetTime failed [ChannelsChanged [channelC2]]) = 1%nat
  ∧ messagesOf (liveStates (step scenarioGetTime failed
                              (InboundMessage inboundC2 arrival250)) !! "c2")
    = [live250].
Proof.
  intros d failed.
  destruct (failed_load_keeps_live_state scenarioGetTime
              [ChannelsChanged [channelC2]] "c2")
    as (_ & Hempty & Hloaded & _ & Hretry & Happend & _); [cbn; left|].
  split; [apply Hempty; reflexivity|]. split; [exact Hloaded|].
  split; [apply (Hretry [ChannelsChanged [channelC2]])|].
  apply (Happend [] inboundC2 arrival250). reflexivity.
Defined.

(** ** The stream client *)

Section ClientProperties.
Context {JSON App : Type}.
Variable JSON_parse : string → option JSON.
Variable url : string.

Abbreviation Client' := (Client JSON App).

Lemma invoke_wiring (eventType : string) (payload : Payload JSON) (c : Client') :
  wiring (invoke eventType payload c).1 = wiring c.
Proof.
  unfold invoke. destruct (handlersRef c !! eventType) as [handler|]; [|done].
  by destruct (handler payload (app c)).
Qed.

Lemma invoke_registered (eventType : string) (payload : Payload JSON)
    (c : Client') (handler : EventHandler JSON App) :
  handlersRef c !! eventType = Some handler →
  calls (invoke eventType payload c).1 = calls c ++ [(eventType, payload)]
  ∧ app (invoke eventType payload c).1 = outcome (handler payload (app c))
  ∧ (invoke eventType payload c).2 =
    match handler payload (app c) with Throws _ => true | Returns _ => false end.
Proof.
  intros Hh. unfold invoke. unfold EventHandler in *. rewrite Hh.
  by destruct (handler payload (app c)).
Qed.

Lemma listener_wiring (eventType data : string) (c : Client') :
  wiring (listener JSON_parse eventType data c) = wiring c.
Proof.
  unfold listener. destruct (JSON_parse data) as [value|].
  - destruct (invoke eventType (Decoded value) c) as [c' threw] eqn:Hc'.
    assert (wiring c' = wiring c) as Hw.
    { change c' with (c', threw).1. rewrite <- Hc'. apply invoke_wiring. }
    destruct threw; [|done]. by rewrite invoke_wiring.
  - apply invoke_wiring.
Qed.

(** What the listener of a registered type does with a frame. *)
Lemma listener_registered (eventType data : string) (c : Client')
    (handler : EventHandler JSON App) :
  handlersRef c !! eventType = Some handler →
  let c' := listener JSON_parse eventType data c in
  match JSON_parse data with
  | Some value =>
      match handler (Decoded value) (app c) with
      | Returns a =>
          calls c' = calls c ++ [(eventType, Decoded value)] ∧ app c' = a
      | Throws a =>
          calls c' = calls c ++ [(eventType, Decoded value); (eventType, Raw data)]
          ∧ app c' = outcome (handler (Raw data) a)
      end
  | None =>
      calls c' = calls c ++ [(eventType, Raw data)]
      ∧ app c' = outcome (handler (Raw data) (app c))
  end.
Proof.
  intros Hh c'. subst c'. unfold listener.
  destruct (JSON_parse data) as [value|].
  - destruct (invoke_registered eventType (Decoded value) c handler Hh)
      as (Hcalls & Happ & Hthrew).
    destruct (invoke eventType (Decoded value) c) as [c1 threw] eqn:Hc1.
    simpl in *.
    assert (handlersRef c1 !! eventType = Some handler) as Hh1.
    { assert (wiring c1 = wiring c) as Hw.
      { change c1 with (c1, threw).1. rewrite <- Hc1. apply invoke_wiring. }
      unfold wiring in Hw. injection Hw as Hhr _ _ _ _ _.
      rewrite Hhr. exact Hh. }
    destruct (handler (Decoded value) (app c)) as [a|a]; simpl in *; subst threw.
    + done.
    + destruct (invoke_registered eventType (Raw data) c1 handler Hh1)
        as (Hcalls2 & Happ2 & _).
      rewrite Hcalls2, Happ2, Hcalls, Happ, <- app_assoc. done.
  - destruct (invoke_registered eventType (Raw data) c handler Hh)
      as (Hcalls & Happ & _). done.
Qed.

(** C6 (amended).  A frame that arrives on an open source, for an event type
    that has a listener on the source (listeners are added, when the
    connection is opened, for the keys the mapping has then) and a handler
    in the current mapping, always leads to a call of that handler: with the
    value [JSON.parse] produced when the payload parses (the only call when
    the handler returns; when the handler throws, the [catch] block calls it
    once more with the raw payload), and with the raw payload string when
    parsing fails.  The call log grows in every case: such a frame is not
    dropped. *)
Theorem every_frame_reaches_handler (c : Client') (i : nat)
    (source : EventSource) (eventType data : string)
    (handler : EventHandler JSON App) :
  sources c !! i = Some source →
  closed source = false →
  eventType ∈ listeners source →
  handlersRef c !! eventType = Some handler →
  let c' := clientStep JSON_parse url c (SourceEvent i eventType data) in
  (∀ value, JSON_parse data = Some value →
     ∃ again, calls c' = calls c ++ (eventType, Decoded value) :: again
       ∧ match handler (Decoded value) (app c) with
         | Returns a => again = [] ∧ app c' = a
         | Throws a =>
             again = [(eventType, Raw data)]
             ∧ app c' = outcome (handler (Raw data) a)
         end)
  ∧ (JSON_parse data = None →
     calls c' = calls c ++ [(eventType, Raw data)]
     ∧ app c' = outcome (handler (Raw data) (app c)))
  ∧ (length (calls c) < length (calls c'))%nat.
Proof.
  intros Hsrc Hopen Hlistens Hh c'.
  assert (c' = listener JSON_parse eventType data c) as ->.
  { subst c'. simpl. rewrite Hsrc, Hopen. by rewrite decide_True. }
  pose proof (listener_registered eventType data c handler Hh) as Hl.
  simpl in Hl. destruct (JSON_parse data) as [value|].
  - split; [|split; [done|]].
    + intros ? [= <-]. destruct (handler (Decoded value) (app c)) as [a|a].
      * exists []. by destruct Hl.
      * exists [(eventType, Raw data)]. by destruct Hl.
    + destruct (handler (Decoded value) (app c)); destruct Hl as [-> _];
        rewrite length_app; simpl; lia.
  - destruct Hl as [Hcalls Happ]. split; [done|]. split; [done|].
    rewrite Hcalls, length_app. simpl. lia.
Qed.

End ClientProperties.

Lemma every_frame_reaches_handler_witness :
  let c' := clientStep sampleParse "/api/events" sampleClient
              (SourceEvent 0 "inbound_message" "not json") in
  calls c' = [("inbound_message", Raw "not json")]
  ∧ app c' = [Raw "not json"].
Proof.
  intros c'.
  destruct (every_frame_reaches_handler sampleParse "/api/events" sampleClient 0
              {| es_url := "/api/events"; listeners := dom sampleHandlers;
                 closed := false |}
              "inbound_message" "not json" recordPayload)
    as (_ & Hraw & _); [reflexivity | reflexivity | | reflexivity |].
  - cbn [listeners]. unfold sampleHandlers. rewrite dom_singleton_L.
    set_solver.
  - by apply Hraw.
Defined.

(** C6, as announced for every frame, does not hold.  The client below was
    connected with a mapping for [inbound_message] only; the mapping was
    then replaced by one that also has a handler for [typing_state].  A
    [typing_state] frame on the open source finds no listener: the handler
    registered for its type is not called and the client is left as it
    was. *)
Lemma frame_of_late_type_is_dropped :
  let swapped :=
    clientStep sampleParse "/api/events" sampleClient
      (Render (<[ "typing_state" := recordPayload ]> sampleHandlers)) in
  let c' := clientStep sampleParse "/api/events" swapped
              (SourceEvent 0 "typing_state" "1") in
  handlersRef swapped !! "typing_state" = Some recordPayload
  ∧ (closed <$> sources swapped !! 0%nat) = Some false
  ∧ sampleParse "1" = Some 1%nat
  ∧ calls c' = [] ∧ app c' = [] ∧ c' = swapped.
Proof.
  intros swapped c'.
  assert (c' = swapped) as Hsame.
  { subst c' swapped. simpl. rewrite decide_False; [done|].
    unfold sampleHandlers. rewrite dom_singleton_L. set_solver. }
  rewrite Hsame. repeat split.
Qed.

(** ** Sources and timers the client keeps track of *)

Lemma closeCurrent_allClosed (ref : option nat) (srcs : list EventSource) :
  (∀ i s, srcs !! i = Some s → closed s = false → ref = Some i) →
  allClosed (closeCurrent ref srcs).
Proof.
  intros Href i s Hs. destruct (closed s) eqn:Hopen; [done|].
  destruct ref as [r|]; simpl in Hs.
  - destruct (decide (r = i)) as [->|Hne].
    + rewrite list_lookup_alter_eq in Hs.
      destruct (srcs !! i) as [s0|]; simpl in Hs; [|done].
      injection Hs as <-. simpl in Hopen. done.
    + rewrite list_lookup_alter_ne in Hs by done.
      specialize (Href i s Hs Hopen). congruence.
  - by specialize (Href i s Hs Hopen).
Qed.

Lemma clearTimer_noneScheduled (ref : option nat) (tms : list Timer) :
  (∀ t tm, tms !! t = Some tm → timerState tm = Scheduled → ref = Some t) →
  noneScheduled (match ref with
                 | Some t => alter clearTimer t tms
                 | None => tms
                 end).
Proof.
  intros Href t tm Htm Hsched. destruct ref as [r|].
  - destruct (decide (r = t)) as [->|Hne].
    + rewrite list_lookup_alter_eq in Htm.
      destruct (tms !! t) as [tm0|]; simpl in Htm; [|done].
      injection Htm as <-. unfold clearTimer in Hsched.
      destruct (timerState tm0) eqn:Hst; simpl in Hsched; congruence.
    + rewrite list_lookup_alter_ne in Htm by done.
      specialize (Href t tm Htm Hsched). congruence.
  - by specialize (Href t tm Htm Hsched).
Qed.

Lemma fireTimer_noneScheduled (t : nat) (tms : list Timer) :
  (∀ t' tm, tms !! t' = Some tm → timerState tm = Scheduled → t' = t) →
  noneScheduled (alter fireTimer t tms).
Proof.
  intros Honly t' tm Htm Hsched.
  destruct (decide (t = t')) as [<-|Hne].
  - rewrite list_lookup_alter_eq in Htm.
    destruct (tms !! t) as [tm0|]; simpl in Htm; [|done].
    injection Htm as <-. simpl in Hsched. done.
  - rewrite list_lookup_alter_ne in Htm by done.
    specialize (Honly t' tm Htm Hsched). congruence.
Qed.

Section Tracking.
Context {JSON App : Type}.
Variable JSON_parse : string → option JSON.
Variable url : string.

Abbreviation Client' := (Client JSON App).

Lemma tracked_quiet (c : Client') :
  allClosed (sources c) → noneScheduled (timers c) → tracked c.
Proof.
  intros Hclosed Hnone. split.
  - intros i s Hs Hopen. specialize (Hclosed i s Hs). congruence.
  - intros t tm Htm Hsched. by specialize (Hnone t tm Htm).
  - done.
  - done.
Qed.

Lemma tracked_connected (c : Client') (srcs : list EventSource)
    (source : EventSource) :
  allClosed srcs →
  sources c = srcs ++ [source] →
  eventSourceRef c = Some (length srcs) →
  noneScheduled (timers c) →
  mounted c = true →
  tracked c.
Proof.
  intros Hclosed Hsrcs Href Hnone Hmounted. split.
  - intros i s Hs Hopen. rewrite Hsrcs in Hs.
    apply lookup_snoc_Some in Hs as [[_ Hs]|[-> _]]; [|done].
    specialize (Hclosed i s Hs). congruence.
  - intros t tm Htm Hsched. by specialize (Hnone t tm Htm).
  - done.
  - congruence.
Qed.

Lemma tracked_waiting (c : Client') (tms : list Timer) (tm : Timer) :
  allClosed (sources c) →
  noneScheduled tms →
  timers c = tms ++ [tm] →
  reconnectTimeout c = Some (length tms) →
  mounted c = true →
  tracked c.
Proof.
  intros Hclosed Hnone Htms Href Hmounted. split.
  - intros i s Hs Hopen. specialize (Hclosed i s Hs). congruence.
  - intros t tm' Htm Hsched. rewrite Htms in Htm.
    apply lookup_snoc_Some in Htm as [[_ Htm]|[-> _]]; [|done].
    by specialize (Hnone t tm' Htm).
  - intros (i & s & Hs & Hopen). specialize (Hclosed i s Hs). congruence.
  - congruence.
Qed.

Lemma tracked_wiring (c c' : Client') :
  wiring c' = wiring c → tracked c → tracked c'.
Proof.
  unfold wiring. intros [= Hh Ht He Hs Htm Hm] [HA HB HC HD].
  split; rewrite ?Ht, ?He, ?Hs, ?Htm, ?Hm; done.
Qed.

Lemma tracked_mounted_source (c : Client') (i : nat) (s : EventSource) :
  tracked c → sources c !! i = Some s → closed s = false → mounted c = true.
Proof.
  intros [_ _ _ HD] Hs Hopen. destruct (mounted c); [done|].
  destruct (HD eq_refl) as [Hclosed _].
  specialize (Hclosed i s Hs). congruence.
Qed.

Lemma tracked_mounted_timer (c : Client') (t : nat) (tm : Timer) :
  tracked c → timers c !! t = Some tm → timerState tm = Scheduled →
  mounted c = true.
Proof.
  intros [_ _ _ HD] Htm Hsched. destruct (mounted c); [done|].
  destruct (HD eq_refl) as [_ Hnone]. by specialize (Hnone t tm Htm).
Qed.

Lemma clientStep_tracked (c : Client') (a : ClientAction JSON App) :
  tracked c → tracked (clientStep JSON_parse url c a).
Proof.
  intros Htr. pose proof Htr as [HA HB HC HD].
  destruct a as [handlers|enabled| |i eventType data|i|t]; simpl.
  - by split.
  - destruct (mounted c) eqn:Hm; [done|]. destruct enabled; [|done].
    destruct (HD eq_refl) as [_ Hnone].
    eapply tracked_connected; simpl; [|reflexivity|reflexivity|done|done].
    by apply closeCurrent_allClosed.
  - destruct (mounted c) eqn:Hm; [|done].
    apply tracked_quiet; simpl.
    + by apply closeCurrent_allClosed.
    + by apply clearTimer_noneScheduled.
  - destruct (sources c !! i) as [s|]; [|done].
    destruct (closed s); [done|]. case_decide; [|done].
    eapply tracked_wiring; [apply listener_wiring|done].
  - destruct (sources c !! i) as [s|] eqn:Hs; [|done].
    destruct (closed s) eqn:Hopen; [done|].
    eapply (tracked_waiting _ (timers c)); simpl; [|..|reflexivity|reflexivity|].
    + pose proof (closeCurrent_allClosed _ _ HA) as Hcl.
      by rewrite (HA i s Hs Hopen) in Hcl.
    + apply HC. by exists i, s.
    + by eapply tracked_mounted_source.
  - destruct (timers c !! t) as [tm|] eqn:Htm; simpl; [|done].
    destruct (timerState tm) eqn:Hsched; try done.
    eapply tracked_connected; simpl; [|reflexivity|reflexivity| |].
    + by apply closeCurrent_allClosed.
    + apply fireTimer_noneScheduled. intros t' tm' Htm' Hsched'.
      pose proof (HB t tm Htm Hsched). pose proof (HB t' tm' Htm' Hsched').
      congruence.
    + by eapply tracked_mounted_timer.
Qed.

Lemma clientRun_tracked (c : Client') (actions : list (ClientAction JSON App)) :
  tracked c → tracked (clientRun JSON_parse url c actions).
Proof.
  unfold clientRun. revert c.
  induction actions as [|a actions IH]; intros c Htr; [done|].
  simpl. by apply IH, clientStep_tracked.
Qed.

Lemma initialClient_tracked (handlers : gmap string (EventHandler JSON App))
    (a : App) :
  tracked (initialClient handlers a).
Proof. apply tracked_quiet; intros i x Hx; simpl in Hx; by destruct i. Qed.

(** An idle client stays idle, and calls no handler, as long as the effect
    does not run again. *)
Lemma clientStep_idle (c : Client') (a : ClientAction JSON App) :
  idle c → startsClient a = false →
  idle (clientStep JSON_parse url c a)
  ∧ calls (clientStep JSON_parse url c a) = calls c
  ∧ app (clientStep JSON_parse url c a) = app c.
Proof.
  intros (Hm & Hclosed & Hnone) Hstart.
  destruct a as [handlers|enabled| |i eventType data|i|t]; simpl.
  - done.
  - rewrite Hm. by destruct enabled.
  - by rewrite Hm.
  - destruct (sources c !! i) as [s|] eqn:Hs; [|done].
    by rewrite (Hclosed i s Hs).
  - destruct (sources c !! i) as [s|] eqn:Hs; [|done].
    by rewrite (Hclosed i s Hs).
  - destruct (timers c !! t) as [tm|] eqn:Htm; simpl; [|done].
    pose proof (Hnone t tm Htm) as Hns.
    destruct (timerState tm); [done|done..].
Qed.

Lemma clientRun_idle (c : Client') (actions : list (ClientAction JSON App)) :
  idle c → forallb (λ a, negb (startsClient a)) actions = true →
  calls (clientRun JSON_parse url c actions) = calls c
  ∧ app (clientRun JSON_parse url c actions) = app c.
Proof.
  unfold clientRun. revert c.
  induction actions as [|a actions IH]; intros c Hidle Hall; [done|].
  simpl in Hall. apply andb_true_iff in Hall as [Ha Hall].
  apply negb_true_iff in Ha.
  destruct (clientStep_idle c a Hidle Ha) as (Hidle' & Hcalls & Happ).
  simpl. destruct (IH _ Hidle' Hall) as [-> ->]. done.
Qed.

End Tracking.

Section Reconnect.
Context {JSON App : Type}.
Variable JSON_parse : string → option JSON.
Variable url : string.

Abbreviation Client' := (Client JSON App).

Lemma listener_calls (eventType data : string) (c : Client')
    (handler : EventHandler JSON App) :
  handlersRef c !! eventType = Some handler →
  ∃ again,
    calls (listener JSON_parse eventType data c)
    = calls c ++ (eventType, decode JSON_parse data) :: again.
Proof.
  intros Hh. pose proof (listener_registered JSON_parse eventType data c handler Hh)
    as Hl. simpl in Hl. unfold decode.
  destruct (JSON_parse data) as [value|].
  - destruct (handler (Decoded value) (app c)); destruct Hl as [-> _]; by eexists.
  - destruct Hl as [-> _]. by eexists.
Qed.

(** What [onerror] leaves behind on a source that was open. *)
Lemma source_error_schedules (c : Client') (i : nat) (s : EventSource) :
  tracked c → sources c !! i = Some s → closed s = false →
  let failed := clientStep JSON_parse url c (SourceError i) in
  failed = onerror i c
  ∧ allClosed (sources failed)
  ∧ (∀ t tm, timers failed !! t = Some tm → timerState tm = Scheduled →
             t = length (timers c)).
Proof.
  intros [HA HB HC HD] Hs Hopen failed.
  assert (failed = onerror i c) as ->.
  { subst failed. simpl. by rewrite Hs, Hopen. }
  split; [done|]. split; simpl.
  - pose proof (closeCurrent_allClosed _ _ HA) as Hcl.
    by rewrite (HA i s Hs Hopen) in Hcl.
  - intros t tm [[_ Htm]|[-> _]]%lookup_snoc_Some Hsched; [|done].
    assert (noneScheduled (timers c)) as Hnone by (apply HC; by exists i, s).
    by specialize (Hnone t tm Htm).
Qed.

(** What the reconnect timer does when it fires. *)
Lemma timer_fires_connects (c : Client') (t : nat) (tm : Timer) :
  timers c !! t = Some tm → timerState tm = Scheduled →
  (∀ t' tm', timers c !! t' = Some tm' → timerState tm' = Scheduled → t' = t) →
  let reconnected := clientStep JSON_parse url c (TimerFires t) in
  let fresh := length (sources c) in
  sources reconnected !! fresh
  = Some {| es_url := url; listeners := dom (handlersRef c); closed := false |}
  ∧ eventSourceRef reconnected = Some fresh
  ∧ noneScheduled (timers reconnected)
  ∧ handlersRef reconnected = handlersRef c
  ∧ calls reconnected = calls c.
Proof.
  intros Htm Hsched Honly reconnected fresh.
  assert (reconnected = timerFires url t c) as ->.
  { subst reconnected. simpl. rewrite Htm. simpl. by rewrite Hsched. }
  assert (length (closeCurrent (eventSourceRef c) (sources c)) = fresh) as Hlen.
  { unfold closeCurrent. destruct (eventSourceRef c); [apply length_alter|done]. }
  unfold timerFires, connect. simpl. rewrite Hlen.
  split; [by apply list_lookup_middle|].
  split; [done|]. split; [by apply fireTimer_noneScheduled|]. done.
Qed.

End Reconnect.

(** C9.  In any state the client can reach, an error on the open source
    closes it (no source is left open) and schedules exactly one timer, with
    a delay of 2000 ms, that is the only scheduled timer and is kept in
    [reconnectTimeout].  When that timer fires, a new source is opened with
    a listener for every key of the handler mapping, no timer remains
    scheduled, and a frame of any type that had a handler before the failure
    is handed to that handler again.  The cleanup of the effect leaves every
    source closed and no timer scheduled; whatever the browser delivers
    afterwards, no handler is called, as long as the effect does not run
    again. *)
Theorem reconnect_and_teardown {JSON App : Type}
    (JSON_parse : string → option JSON) (url : string)
    (handlers : gmap string (EventHandler JSON App)) (a0 : App)
    (actions : list (ClientAction JSON App)) :
  let c := clientRun JSON_parse url (initialClient handlers a0) actions in
  (∀ i s, sources c !! i = Some s → closed s = false →
     let failed := clientStep JSON_parse url c (SourceError i) in
     let timer := length (timers c) in
     allClosed (sources failed)
     ∧ timers failed = timers c ++ [{| delay := 2000; timerState := Scheduled |}]
     ∧ reconnectTimeout failed = Some timer
     ∧ (∀ t tm, timers failed !! t = Some tm → timerState tm = Scheduled →
                t = timer)
     ∧ let reconnected := clientStep JSON_parse url failed (TimerFires timer) in
       let fresh := length (sources failed) in
       sources reconnected !! fresh
       = Some {| es_url := url; listeners := dom (handlersRef c);
                 closed := false |}
       ∧ eventSourceRef reconnected = Some fresh
       ∧ noneScheduled (timers reconnected)
       ∧ handlersRef reconnected = handlersRef c
       ∧ ∀ eventType handler data,
           handlersRef c !! eventType = Some handler →
           ∃ again,
             calls (clientStep JSON_parse url reconnected
                      (SourceEvent fresh eventType data))
             = calls reconnected
               ++ (eventType, decode JSON_parse data) :: again)
  ∧ (let down := clientStep JSON_parse url c EffectCleanup in
     idle down
     ∧ ∀ later, forallb (λ a, negb (startsClient a)) later = true →
         calls (clientRun JSON_parse url down later) = calls down
         ∧ app (clientRun JSON_parse url down later) = app down).
Proof.
  intros c.
  assert (tracked c) as Htr by apply clientRun_tracked, initialClient_tracked.
  split.
  - intros i s Hs Hopen failed timer.
    destruct (source_error_schedules JSON_parse url c i s Htr Hs Hopen)
      as (Hfailed & Hclosed & Honly).
    fold failed in Hfailed, Hclosed, Honly.
    assert (timers failed
            = timers c ++ [{| delay := 2000; timerState := Scheduled |}]) as Htms
      by by rewrite Hfailed.
    assert (timers failed !! timer
            = Some {| delay := 2000; timerState := Scheduled |}) as Htm
      by (rewrite Htms; by apply list_lookup_middle).
    split; [done|]. split; [done|]. split; [by rewrite Hfailed|].
    split; [done|]. intros reconnected fresh.
    destruct (timer_fires_connects JSON_parse url failed timer _ Htm eq_refl Honly)
      as (Hnew & Href & Hnone & Hhandlers & Hcalls).
    fold reconnected in Hnew, Href, Hnone, Hhandlers, Hcalls. fold fresh in Hnew, Href.
    assert (handlersRef failed = handlersRef c) as Hsame by by rewrite Hfailed.
    rewrite Hsame in Hnew, Hhandlers.
    split; [done|]. split; [done|]. split; [done|]. split; [done|].
    intros eventType handler data Hh. simpl. rewrite Hnew. simpl.
    rewrite decide_True by (apply elem_of_dom; by eexists).
    apply (listener_calls JSON_parse eventType data reconnected handler).
    by rewrite Hhandlers.
  - intros down.
    assert (idle down) as Hidle.
    { subst down. simpl. destruct (mounted c) eqn:Hm.
      - destruct Htr as [HA HB _ _]. split; [done|]. simpl. split.
        + by apply closeCurrent_allClosed.
        + by apply clearTimer_noneScheduled.
      - destruct Htr as [_ _ _ HD]. destruct (HD Hm). by split. }
    split; [done|]. intros later Hlater. by apply clientRun_idle.
Qed.

Lemma reconnect_and_teardown_witness :
  let failed := clientStep sampleParse "/api/events" sampleClient (SourceError 0) in
  timers failed = [{| delay := 2000; timerState := Scheduled |}]
  ∧ reconnectTimeout failed = Some 0%nat
  ∧ (∃ again,
       calls (clientStep sampleParse "/api/events"
                (clientStep sampleParse "/api/events" failed (TimerFires 0))
                (SourceEvent 1 "inbound_message" "2"))
       = ("inbound_message", Decoded 2%nat) :: again)
  ∧ calls (clientRun sampleParse "/api/events"
             (clientStep sampleParse "/api/events" sampleClient EffectCleanup)
             [SourceEvent 0 "inbound_message" "1"; TimerFires 0;
              SourceError 0]) = [].
Proof.
  intros failed.
  destruct (reconnect_and_teardown sampleParse "/api/events" sampleHandlers []
              [EffectRuns true]) as [Hfail Hdown].
  destruct (Hfail 0%nat
              {| es_url := "/api/events"; listeners := dom sampleHandlers;
                 closed := false |} eq_refl eq_refl)
    as (_ & Htimers & Href & _ & _ & _ & _ & _ & Hframe).
  destruct Hdown as [_ Hquiet].
  split; [exact Htimers|]. split; [exact Href|]. split.
  - apply (Hframe "inbound_message" recordPayload "2"). reflexivity.
  - apply (Hquiet [SourceEvent 0 "inbound_message" "1"; TimerFires 0;
                   SourceError 0]). reflexivity.
Defined.

(** ** The first scenario of the design document

    [c1] has no history; "hi" from [u1] arrives before the empty history
    does.  The sequence holds that one message and the marker is set. *)
Example empty_history_race :
  liveStates (run scenarioGetTime initialDashboard emptyHistoryRace) !! "c1"
  = Some {| ChannelLiveState.isTyping := false;
            ChannelLiveState.messages :=
              [{| ChatMessage.id := "in-400-0.73";
                  ChatMessage.sender := ChatMessage.user;
                  ChatMessage.senderName := Some "u1";
                  ChatMessage.text := "hi";
                  ChatMessage.timestamp := 400 |}];
            ChannelLiveState.historyLoaded := true |}.
Proof. vm_compute. reflexivity. Qed.

(** * Further properties of the store *)

Lemma slice_last_absorb {A} (n : nat) (l k : list A) :
  slice_last n (slice_last n l ++ k) = slice_last n (l ++ k).
Proof.
  destruct (decide (length l ≤ n)%nat) as [Hle|Hgt].
  - by rewrite (slice_last_short n l).
  - unfold slice_last. rewrite !length_app, length_drop.
    replace (length l - (length l - n) + length k - n)%nat with (length k) by lia.
    replace (length l + length k - n)%nat
      with ((length l - n) + length k)%nat by lia.
    rewrite <- drop_drop. f_equal. rewrite drop_app_le by lia. done.
Qed.

Lemma slice_last_last {A} (n : nat) (l : list A) :
  (0 < n)%nat → last (slice_last n l) = last l.
Proof.
  intros Hn. destruct (decide (length l ≤ n)%nat) as [Hle|Hgt].
  - by rewrite slice_last_short.
  - unfold slice_last. rewrite !last_lookup, length_drop, lookup_drop.
    f_equal. lia.
Qed.

(** X1.  The message a push appends is never the one the cap evicts: it is
    the last element of the channel's sequence afterwards, and the last row
    the card of the channel shows. *)
Theorem pushed_message_is_newest (cid : string) (m : ChatMessage.t)
    (prev : LiveStates) :
  last (messagesOf (pushMessage cid m prev !! cid)) = Some m
  ∧ last (visibleMessages (pushMessage cid m prev !! cid)) = Some m.
Proof.
  assert (last (messagesOf (pushMessage cid m prev !! cid)) = Some m) as Hlast.
  { rewrite pushMessage_messages, decide_True by done.
    rewrite slice_last_last by (unfold MAX_MESSAGES; lia). apply last_snoc. }
  split; [done|]. unfold visibleMessages.
  by rewrite slice_last_last by (unfold VISIBLE_MESSAGES; lia).
Qed.

(** X2.  Eviction is first in, first out.  On a sequence within the cap, a
    push below the cap keeps every element and appends; at the cap it drops
    exactly the first (oldest) element and appends. *)
Theorem push_evicts_oldest (cid : string) (m : ChatMessage.t)
    (prev : LiveStates) :
  let old := messagesOf (prev !! cid) in
  (length old ≤ MAX_MESSAGES)%nat →
  messagesOf (pushMessage cid m prev !! cid)
  = (if decide (length old < MAX_MESSAGES)%nat then old else drop 1 old) ++ [m].
Proof.
  intros old Hle. rewrite pushMessage_messages, decide_True by done. fold old.
  unfold slice_last. rewrite length_app. simpl. case_decide as Hlt.
  - by replace (length old + 1 - MAX_MESSAGES)%nat with 0%nat by lia.
  - replace (length old + 1 - MAX_MESSAGES)%nat with 1%nat by lia.
    rewrite drop_app_le; [done|]. unfold MAX_MESSAGES in *. lia.
Qed.

Lemma push_evicts_oldest_witness :
  messagesOf (pushMessage "c2" (historyMessage "m4" 400) storeC2 !! "c2")
  = [live250; historyMessage "m4" 400].
Proof.
  apply (push_evicts_oldest "c2" (historyMessage "m4" 400) storeC2).
  apply Nat.leb_le. reflexivity.
Defined.

Section Runs.
Variable getTime : string → Z.

Lemma step_event_messages (d : Dashboard) (a : Action) (cid : string)
    (m : ChatMessage.t) :
  eventChannel a = Some cid → eventMessage a = Some m →
  messagesOf (liveStates (step getTime d a) !! cid)
  = slice_last MAX_MESSAGES (messagesOf (liveStates d !! cid) ++ [m]).
Proof.
  destruct a as [channels|event env|event env|event|c data|c]; simpl;
    intros [= <-] [= <-].
  - unfold handleInboundMessage. by rewrite pushMessage_messages, decide_True.
  - unfold handleOutboundMessage.
    by rewrite clearTyping_messages, pushMessage_messages, decide_True.
Qed.

Lemma run_events_messages (d : Dashboard) (more : list Action) (cid : string) :
  (length (messagesOf (liveStates d !! cid)) ≤ MAX_MESSAGES)%nat →
  Forall (λ a, eventChannel a = Some cid ∧ is_Some (eventMessage a)) more →
  messagesOf (liveStates (run getTime d more) !! cid)
  = slice_last MAX_MESSAGES
      (messagesOf (liveStates d !! cid) ++ omap eventMessage more).
Proof.
  unfold run. revert d.
  induction more as [|a more IH]; intros d Hle Hall.
  - simpl. rewrite app_nil_r. by rewrite slice_last_short.
  - apply Forall_cons in Hall as [[Hc [m Hm]] Hall]. simpl.
    rewrite IH; [|rewrite (step_event_messages d a cid m) by done;
                   apply slice_last_bound|done].
    rewrite (step_event_messages d a cid m) by done.
    rewrite Hm, slice_last_absorb, <- app_assoc. done.
Qed.

End Runs.

(** X3.  Message events delivered to one channel keep their order: after a
    run of them, the channel's sequence is what it was, followed by their
    messages in delivery order, cut to the last 50.  Eviction only ever
    removes from the front. *)
Theorem delivery_order_kept (getTime : string → Z) (actions more : list Action)
    (cid : string) :
  Forall (λ a, eventChannel a = Some cid ∧ is_Some (eventMessage a)) more →
  let d := run getTime initialDashboard actions in
  messagesOf (liveStates (run getTime d more) !! cid)
  = slice_last MAX_MESSAGES
      (messagesOf (liveStates d !! cid) ++ omap eventMessage more).
Proof.
  intros Hall d. apply run_events_messages; [|done].
  apply (run_bounded getTime), bounded_empty.
Qed.

Lemma delivery_order_kept_witness :
  messagesOf
    (liveStates
       (run scenarioGetTime
          (run scenarioGetTime initialDashboard [ChannelsChanged [channelC2]])
          [InboundMessage inboundC2 arrival250;
           OutboundMessage outboundC2 arrival400]) !! "c2")
  = [inboundChatMessage inboundC2 arrival250;
     outboundChatMessage outboundC2 arrival400].
Proof.
  apply (delivery_order_kept scenarioGetTime [ChannelsChanged [channelC2]]
           [InboundMessage inboundC2 arrival250;
            OutboundMessage outboundC2 arrival400] "c2").
  repeat constructor; by eexists.
Defined.

(** ** Events of different channels *)

Section Commute.
Variable getTime : string → Z.

(** A handler call rewrites the entry of its channel from that entry alone. *)
Lemma step_event_insert (a : Action) (c : string) :
  eventChannel a = Some c →
  ∃ f : option ChannelLiveState.t → ChannelLiveState.t,
    ∀ d, step getTime d a
         = withLiveStates d (<[c := f (liveStates d !! c)]> (liveStates d)).
Proof.
  destruct a as [channels|event env|event env|event|cid data|cid]; simpl;
    intros [= <-].
  - exists (λ o,
      let existing := default emptyLiveState o in
      {| ChannelLiveState.isTyping := ChannelLiveState.isTyping existing;
         ChannelLiveState.messages :=
           slice_last MAX_MESSAGES
             (ChannelLiveState.messages existing ++ [inboundChatMessage event env]);
         ChannelLiveState.historyLoaded :=
           ChannelLiveState.historyLoaded existing |}).
    done.
  - exists (λ o,
      {| ChannelLiveState.isTyping := false;
         ChannelLiveState.messages :=
           slice_last MAX_MESSAGES
             (messagesOf o ++ [outboundChatMessage event env]);
         ChannelLiveState.historyLoaded := historyLoadedOf o |}).
    intros d. f_equal. unfold handleOutboundMessage, clearTyping.
    rewrite pushMessage_lookup. unfold pushMessage.
    by rewrite insert_insert_eq.
  - exists (λ o,
      {| ChannelLiveState.isTyping := TypingStateEvent.is_typing event;
         ChannelLiveState.messages := messagesOf o;
         ChannelLiveState.historyLoaded := historyLoadedOf o |}).
    done.
Qed.

End Commute.

(** X4.  Handler calls addressed to different channels commute: the
    dashboard ends in the same state whichever of the two events is handled
    first. *)
Theorem events_of_different_channels_commute (getTime : string → Z)
    (d : Dashboard) (a b : Action) (ca cb : string) :
  eventChannel a = Some ca → eventChannel b = Some cb → ca ≠ cb →
  step getTime (step getTime d a) b = step getTime (step getTime d b) a.
Proof.
  intros Ha Hb Hne.
  destruct (step_event_insert getTime a ca Ha) as [fa Hfa].
  destruct (step_event_insert getTime b cb Hb) as [fb Hfb].
  rewrite (Hfa d), (Hfb d), Hfa, Hfb. unfold withLiveStates. simpl.
  rewrite !lookup_insert_ne by done. f_equal. by apply insert_insert_ne.
Qed.

Lemma events_of_different_channels_commute_witness :
  step scenarioGetTime
    (step scenarioGetTime initialDashboard (InboundMessage inboundC1 arrival400))
    (TypingState (typingC2 true))
  = step scenarioGetTime
      (step scenarioGetTime initialDashboard (TypingState (typingC2 true)))
      (InboundMessage inboundC1 arrival400).
Proof.
  apply (events_of_different_channels_commute scenarioGetTime initialDashboard
           (InboundMessage inboundC1 arrival400) (TypingState (typingC2 true))
           "c1" "c2"); [reflexivity | reflexivity | discriminate].
Defined.

(** ** A history that resolves *)

Lemma accounted_pending_loaded (d : Dashboard) (cid : string) :
  requestsAccounted d → cid ∈ pending d →
  historyLoadedOf (liveStates d !! cid) = true
  ∧ pendingCount cid d = 1%nat.
Proof.
  intros Hinv Hin. destruct (Hinv cid) as [Hp Hr].
  apply count_positive in Hin. fold (pendingCount cid d) in Hin.
  destruct (historyLoadedOf (liveStates d !! cid)); simpl in Hr; split;
    try done; lia.
Qed.

Lemma historyLoaded_is_Some (ls : LiveStates) (cid : string) :
  historyLoadedOf (ls !! cid) = true → is_Some (ls !! cid).
Proof. destruct (ls !! cid); [by eexists | done]. Qed.

(** X5.  In a state the dashboard can reach, the history that resolves for a
    channel with an outstanding request is always merged: the channel has a
    live state by then, so the result is never discarded.  The request is
    settled; every live message newer than the last history timestamp
    is still in the sequence; and the whole history is in it when history and
    buffer together fit the cap. *)
Theorem resolved_history_is_merged (getTime : string → Z)
    (actions : list Action) (cid : string) (data : MessagesResponse.t) :
  let d := run getTime initialDashboard actions in
  cid ∈ pending d →
  let history := toHistory getTime data in
  let before := messagesOf (liveStates d !! cid) in
  let resolved := step getTime d (HistoryResolved cid data) in
  let after := messagesOf (liveStates resolved !! cid) in
  after = mergedMessages history before
  ∧ (cid ∉ pending resolved)
  ∧ (∀ m, m ∈ before → lastHistoryTs history < ChatMessage.timestamp m →
          m ∈ after)
  ∧ ((length history + length before ≤ MAX_MESSAGES)%nat →
     (∀ m, m ∈ history → m ∈ after)).
Proof.
  intros d Hpend history before resolved after.
  assert (requestsAccounted d) as Hinv
    by apply run_accounted, initial_accounted.
  destruct (accounted_pending_loaded d cid Hinv Hpend) as [Hl Hone].
  assert (after = mergedMessages history before) as Hafter.
  { subst after resolved. simpl. rewrite decide_True by done. simpl.
    rewrite mergeHistory_messages, decide_True; [done|].
    split; [done|]. by apply historyLoaded_is_Some. }
  assert (length before ≤ MAX_MESSAGES)%nat as Hcap
    by apply (run_bounded getTime), bounded_empty.
  split; [done|]. split; [|split].
  - subst resolved. simpl. rewrite decide_True by done. simpl.
    intros Hin%count_positive.
    pose proof (settle_count_own cid (pending d) Hpend) as Hown.
    unfold pendingCount in Hone. lia.
  - intros m Hm Hnew. rewrite Hafter. unfold mergedMessages, slice_last.
    set (kept := newSseMessages history before).
    assert (m ∈ kept) as Hk by by apply list_elem_of_filter.
    assert (length kept ≤ length before)%nat as Hlen by apply length_filter.
    rewrite drop_app. apply elem_of_app. right.
    rewrite length_app.
    replace (length history + length kept - MAX_MESSAGES - length history)%nat
      with 0%nat by lia.
    done.
  - intros Hfit m Hm. rewrite Hafter. unfold mergedMessages.
    pose proof (length_filter
                  (λ m, lastHistoryTs history < ChatMessage.timestamp m) before)
      as Hlen.
    rewrite slice_last_short
      by (rewrite length_app; unfold newSseMessages; lia).
    apply elem_of_app. by left.
Qed.

Lemma resolved_history_is_merged_witness :
  let d := run scenarioGetTime initialDashboard
             [ChannelsChanged [channelC2]; InboundMessage inboundC2 arrival400] in
  messagesOf (liveStates (step scenarioGetTime d
                            (HistoryResolved "c2" response300)) !! "c2")
  = mergedMessages (toHistory scenarioGetTime response300)
      (messagesOf (liveStates d !! "c2")).
Proof.
  intros d.
  apply (resolved_history_is_merged scenarioGetTime
           [ChannelsChanged [channelC2]; InboundMessage inboundC2 arrival400]
           "c2" response300).
  cbn. left.
Defined.

(** X6.  A history without rows changes nothing: the cutoff is 0, so, with
    every live timestamp positive (they are readings of [Date.now()]), the
    whole buffer passes, and the store after the merge is the store before
    it. *)
Theorem empty_history_changes_nothing (getTime : string → Z)
    (actions : list Action) (cid : string) :
  let d := run getTime initialDashboard actions in
  cid ∈ pending d →
  (∀ m, m ∈ messagesOf (liveStates d !! cid) → 0 < ChatMessage.timestamp m) →
  liveStates (step getTime d
                (HistoryResolved cid {| MessagesResponse.messages := [] |}))
  = liveStates d.
Proof.
  intros d Hpend Hpos. simpl. rewrite decide_True by done. simpl.
  assert (length (messagesOf (liveStates d !! cid)) ≤ MAX_MESSAGES)%nat as Hcap
    by apply (run_bounded getTime), bounded_empty.
  unfold mergeHistory.
  destruct (liveStates d !! cid) as [existing|] eqn:Hc; [|done].
  apply insert_id. rewrite Hc. f_equal. unfold messagesOf in Hpos, Hcap.
  simpl in Hpos, Hcap.
  assert (mergedMessages (toHistory getTime {| MessagesResponse.messages := [] |})
            (ChannelLiveState.messages existing)
          = ChannelLiveState.messages existing) as ->.
  { unfold mergedMessages. rewrite newSseMessages_kept.
    - by apply slice_last_short.
    - intros m Hm. by apply Hpos. }
  by destruct existing.
Qed.

Lemma empty_history_changes_nothing_witness :
  let d := run scenarioGetTime initialDashboard
             [ChannelsChanged [channelC2]; InboundMessage inboundC2 arrival400] in
  liveStates (step scenarioGetTime d
                (HistoryResolved "c2" {| MessagesResponse.messages := [] |}))
  = liveStates d.
Proof.
  intros d.
  apply (empty_history_changes_nothing scenarioGetTime
           [ChannelsChanged [channelC2]; InboundMessage inboundC2 arrival400]
           "c2").
  - cbn. left.
  - intros m Hm. vm_compute in Hm.
    apply list_elem_of_singleton in Hm as ->. reflexivity.
Defined.

(** ** Whole runs that fit *)

Section FittingRuns.
Variable getTime : string → Z.

Lemma step_keeps_order (d : Dashboard) (a : Action) (cid : string) :
  let before := messagesOf (liveStates d !! cid) in
  let after := messagesOf (liveStates (step getTime d a) !! cid) in
  ascending before → distinctIds before → inputFits getTime before cid a →
  ascending after ∧ distinctIds after.
Proof.
  intros before after Hasc Hdis Hfit.
  destruct (step_messages getTime d a cid)
    as [Heq|[(event & env & -> & Hc & Heq)|[(event & env & -> & Hc & Heq)
           |(data & -> & Heq)]]];
    fold before in Heq; fold after in Heq; rewrite Heq.
  - done.
  - destruct (Hfit Hc) as [Hlast Hfresh]. by apply append_keeps_invariant.
  - destruct (Hfit Hc) as [Hlast Hfresh]. by apply append_keeps_invariant.
  - destruct (Hfit eq_refl) as (Hh & Hdh & Hids).
    by apply merge_keeps_invariant.
Qed.

Lemma fitting_run_keeps_order (d : Dashboard) (actions : list Action) :
  (∀ cid, ascending (messagesOf (liveStates d !! cid))
          ∧ distinctIds (messagesOf (liveStates d !! cid))) →
  fitsRun getTime d actions →
  ∀ cid, ascending (messagesOf (liveStates (run getTime d actions) !! cid))
         ∧ distinctIds (messagesOf (liveStates (run getTime d actions) !! cid)).
Proof.
  unfold run. revert d.
  induction actions as [|a actions IH]; intros d Hd Hfits; [done|].
  destruct Hfits as [Hfit Hfits]. simpl. apply IH; [|done].
  intros cid. destruct (Hd cid) as [Hasc Hdis].
  by apply step_keeps_order.
Qed.

End FittingRuns.

(** X7.  Along a run in which every action meets the store with an input
    that fits (appended messages not older than the last element and with
    fresh identities, merged histories ascending, free of duplicates and
    disjoint from the newer live messages), every channel's sequence
    satisfies the invariant of the data model at the end: at most 50
    elements, ascending timestamps, no identity twice. *)
Theorem fitting_run_keeps_invariant (getTime : string → Z)
    (actions : list Action) (cid : string) :
  fitsRun getTime initialDashboard actions →
  announcedInvariant
    (messagesOf (liveStates (run getTime initialDashboard actions) !! cid)).
Proof.
  intros Hfits. split.
  - apply (run_bounded getTime), bounded_empty.
  - apply (fitting_run_keeps_order getTime initialDashboard actions); [|done].
    intros c. simpl. rewrite lookup_empty. split; constructor.
Qed.

Lemma fitting_run_keeps_invariant_witness :
  announcedInvariant
    (messagesOf
       (liveStates
          (run scenarioGetTime initialDashboard
             [ChannelsChanged [channelC2];
              InboundMessage inboundC2 arrival250;
              OutboundMessage outboundC2 arrival400]) !! "c2")).
Proof.
  apply (fitting_run_keeps_invariant scenarioGetTime
           [ChannelsChanged [channelC2];
            InboundMessage inboundC2 arrival250;
            OutboundMessage outboundC2 arrival400] "c2").
  split; [done|]. split; [|split; [|done]].
  - intros cid <-. split.
    + intros x Hx. discriminate Hx.
    + intros Hin. inversion Hin.
  - intros cid <-. split.
    + intros x Hx. vm_compute in Hx. injection Hx as <-. vm_compute. discriminate.
    + vm_compute. intros Hin. apply list_elem_of_singleton in Hin. discriminate Hin.
Defined.

(** * The cards *)

(** X8.  Who a row is attributed to.  A row of the history that the
    assistant wrote is labelled "bot" whatever names it carries; a user's row
    is labelled with its [sender_name], without one with its [sender_id], and
    with "user" when it has neither.  A live inbound message is labelled with
    the event's [sender_id], a live outbound message with "bot". *)
Theorem row_labels (getTime : string → Z) (row : ConversationMessage.t)
    (inbound : InboundMessageEvent.t) (outbound : OutboundMessageEvent.t)
    (env : Arrival) :
  senderLabel (toChatMessage getTime row)
  = match ConversationMessage.role row with
    | ConversationMessage.assistant => "bot"
    | ConversationMessage.user =>
        match ConversationMessage.sender_name row with
        | Some name => name
        | None => default "user" (ConversationMessage.sender_id row)
        end
    end
  ∧ senderLabel (inboundChatMessage inbound env)
    = InboundMessageEvent.sender_id inbound
  ∧ senderLabel (outboundChatMessage outbound env) = "bot".
Proof.
  split; [|done]. unfold senderLabel, toChatMessage. simpl.
  destruct (ConversationMessage.role row); [|done].
  by destruct (ConversationMessage.sender_name row).
Qed.

Section CardProperties.
Variable now : Z.
Variable getTime : string → Z.
Variable formatTimestamp : Z → string.

(** X9.  The card shows the last six messages of the channel, oldest first,
    and accounts for the others: the rows and the count of earlier messages
    add up to the stored sequence; the count appears exactly when something
    is hidden and is then at least 1 (at most 44 under the cap); a channel
    without messages gets no message stream at all. *)
Theorem card_shows_latest_six (channel : ChannelInfo.t)
    (liveState : option ChannelLiveState.t) :
  let messages := messagesOf liveState in
  match stream (ChannelCard now getTime formatTimestamp channel liveState) with
  | None => messages = []
  | Some s =>
      messages ≠ []
      ∧ rows s = messageRow formatTimestamp
                   <$> drop (length messages - 6) messages
      ∧ length (rows s) = (length messages `min` 6)%nat
      ∧ (length (rows s) + default 0%nat (earlier s))%nat = length messages
      ∧ (earlier s = None ↔ (length messages ≤ 6)%nat)
      ∧ earlier s ≠ Some 0%nat
      ∧ ((length messages ≤ MAX_MESSAGES)%nat →
         (default 0%nat (earlier s) ≤ 44)%nat)
  end.
Proof.
  intros messages. unfold ChannelCard. cbn [stream].
  unfold visibleMessages. fold messages.
  rewrite slice_last_length. unfold VISIBLE_MESSAGES, MAX_MESSAGES.
  case_decide as Hvis.
  - cbn [rows earlier]. rewrite length_fmap, slice_last_length.
    split; [by destruct messages; [simpl in Hvis; lia|]|].
    split; [done|]. split; [lia|].
    case_decide as Hmore; cbn [from_option id].
    + split; [lia|]. split; [split; [done|lia]|]. split; [|lia].
      intros [= Hz]. lia.
    + split; [lia|]. split; [split; [lia|done]|]. split; [done|lia].
  - destruct messages; [done|]. simpl in Hvis. lia.
Qed.

(** X10.  The grid has one card per channel of the list, in list order, made
    from the live state stored under that channel's id.  A channel for which
    the store holds no state (none of its events was handled and the effect
    has not met it) still gets its card: headed by its display name, or its
    id when it has none, without typing dots and without a message stream. *)
Theorem grid_card_per_channel (channels : list ChannelInfo.t) (ls : LiveStates)
    (i : nat) (channel : ChannelInfo.t) :
  channels !! i = Some channel →
  length (channelGrid now getTime formatTimestamp channels ls) = length channels
  ∧ channelGrid now getTime formatTimestamp channels ls !! i
    = Some (ChannelCard now getTime formatTimestamp channel
              (ls !! ChannelInfo.id channel))
  ∧ (ls !! ChannelInfo.id channel = None →
     ∃ card,
       channelGrid now getTime formatTimestamp channels ls !! i = Some card
       ∧ heading card
         = default (ChannelInfo.id channel) (ChannelInfo.display_name channel)
       ∧ typingDots card = false
       ∧ stream card = None).
Proof.
  intros Hi. unfold channelGrid. rewrite length_fmap, list_lookup_fmap, Hi.
  split; [done|]. split; [done|]. intros Hnone.
  eexists. split; [reflexivity|]. by rewrite Hnone.
Qed.

End CardProperties.

Lemma card_shows_latest_six_witness :
  stream (ChannelCard 1000 scenarioGetTime pretty channelC1 None) = None
  ∧ ∃ s, stream (ChannelCard 1000 scenarioGetTime pretty channelC2
                   (Some loadingC2)) = Some s
         ∧ length (rows s) = 1%nat ∧ earlier s = None.
Proof.
  split; [reflexivity|].
  pose proof (card_shows_latest_six 1000 scenarioGetTime pretty channelC2
                (Some loadingC2)) as Hcard.
  destruct (stream (ChannelCard 1000 scenarioGetTime pretty channelC2
                      (Some loadingC2))) as [s|] eqn:Hs.
  - exists s. split; [reflexivity|].
    destruct Hcard as (_ & _ & Hlen & _ & Hnone & _).
    split; [exact Hlen|]. apply Hnone. simpl. lia.
  - discriminate Hcard.
Defined.

Lemma grid_card_per_channel_witness :
  channelGrid 1000 scenarioGetTime pretty [channelC1; channelC2] storeC2 !! 0%nat
  = Some (ChannelCard 1000 scenarioGetTime pretty channelC1 None).
Proof.
  destruct (grid_card_per_channel 1000 scenarioGetTime pretty
              [channelC1; channelC2] storeC2 0 channelC1 eq_refl)
    as (_ & Hcard & _).
  exact Hcard.
Defined.

(** * Formatting *)

(** X11.  What [formatUptime] prints for a whole number of seconds.  Below a
    minute: the seconds.  Below an hour: minutes (1 to 59) and seconds (0 to
    59).  From an hour on: hours and minutes (0 to 59), the seconds being
    dropped.  A component of 60 or more is never printed.  For a negative
    count only the remainder of the seconds is printed, with its sign. *)
Theorem formatUptime_forms (seconds : Z) :
  (0 ≤ seconds < 60 → formatUptime seconds = pretty seconds +:+ "s")
  ∧ (60 ≤ seconds < 3600 →
     formatUptime seconds
     = pretty (seconds `div` 60) +:+ "m " +:+ pretty (seconds `mod` 60) +:+ "s"
     ∧ 1 ≤ seconds `div` 60 ≤ 59 ∧ 0 ≤ seconds `mod` 60 ≤ 59)
  ∧ (3600 ≤ seconds →
     formatUptime seconds
     = pretty (seconds `div` 3600) +:+ "h "
       +:+ pretty ((seconds `div` 60) `mod` 60) +:+ "m"
     ∧ 1 ≤ seconds `div` 3600 ∧ 0 ≤ (seconds `div` 60) `mod` 60 ≤ 59)
  ∧ (seconds < 0 → formatUptime seconds = pretty (seconds `rem` 60) +:+ "s").
Proof.
  unfold formatUptime. split; [|split; [|split]]; intros Hs.
  - rewrite !Z.rem_mod_nonneg by lia.
    rewrite !decide_False by (Z.div_mod_to_equations; lia).
    by replace (seconds `mod` 60) with seconds by (Z.div_mod_to_equations; lia).
  - rewrite !Z.rem_mod_nonneg by lia.
    rewrite decide_False by (Z.div_mod_to_equations; lia).
    rewrite decide_True by (Z.div_mod_to_equations; lia).
    split; [|Z.div_mod_to_equations; lia].
    by replace ((seconds `mod` 3600) `div` 60) with (seconds `div` 60)
      by (Z.div_mod_to_equations; lia).
  - rewrite !Z.rem_mod_nonneg by lia.
    rewrite decide_True by (Z.div_mod_to_equations; lia).
    split; [|Z.div_mod_to_equations; lia].
    by replace ((seconds `mod` 3600) `div` 60) with ((seconds `div` 60) `mod` 60)
      by (Z.div_mod_to_equations; lia).
  - rewrite !decide_False; [done|..];
      Z.to_euclidean_division_equations; lia.
Qed.

Lemma formatUptime_forms_witness :
  formatUptime 59 = "59s"
  ∧ formatUptime 3599 = "59m 59s"
  ∧ formatUptime 7325 = "2h 2m"
  ∧ formatUptime (-3661) = "-1s".
Proof.
  destruct (formatUptime_forms 59) as (H1 & _).
  destruct (formatUptime_forms 3599) as (_ & H2 & _).
  destruct (formatUptime_forms 7325) as (_ & _ & H3 & _).
  destruct (formatUptime_forms (-3661)) as (_ & _ & _ & H4).
  split; [apply H1; lia|]. split; [apply H2; lia|].
  split; [apply H3; lia | apply H4; lia].
Defined.

(** X12.  What [formatTimeAgo] prints, by the whole seconds elapsed between
    the date and now.  Less than 60, a date in the future included: "just
    now".  Otherwise a count with its unit, the largest unit that is reached:
    minutes from 1 to 59, hours from 1 to 23, days from 1.  A count of 0 is
    never printed. *)
Theorem formatTimeAgo_forms (now : Z) (getTime : string → Z) (dateStr : string) :
  let elapsed := (now - getTime dateStr) `div` 1000 in
  let shown := formatTimeAgo now getTime dateStr in
  (elapsed < 60 → shown = "just now")
  ∧ (60 ≤ elapsed < 3600 →
     ∃ n, 1 ≤ n ≤ 59 ∧ n = elapsed `div` 60 ∧ shown = pretty n +:+ "m ago")
  ∧ (3600 ≤ elapsed < 86400 →
     ∃ n, 1 ≤ n ≤ 23 ∧ n = elapsed `div` 3600 ∧ shown = pretty n +:+ "h ago")
  ∧ (86400 ≤ elapsed →
     ∃ n, 1 ≤ n ∧ n = elapsed `div` 86400 ∧ shown = pretty n +:+ "d ago").
Proof.
  intros elapsed shown. subst shown. unfold formatTimeAgo. fold elapsed.
  repeat split.
  - intros He. by rewrite decide_True.
  - intros He. eexists. split; [|split; [reflexivity|]].
    + Z.div_mod_to_equations; lia.
    + rewrite decide_False by lia. by rewrite decide_True by lia.
  - intros He. eexists. split; [|split; [reflexivity|]].
    + Z.div_mod_to_equations; lia.
    + rewrite !decide_False by lia. by rewrite decide_True by lia.
  - intros He. eexists. split; [|split; [reflexivity|]].
    + Z.div_mod_to_equations; lia.
    + by rewrite !decide_False by lia.
Qed.

Lemma formatTimeAgo_forms_witness :
  formatTimeAgo 7200000 scenarioGetTime "1970-01-01T00:00:00.300Z" = "1h ago"
  ∧ formatTimeAgo 0 scenarioGetTime "1970-01-01T00:00:00.300Z" = "just now".
Proof.
  destruct (formatTimeAgo_forms 7200000 scenarioGetTime
              "1970-01-01T00:00:00.300Z") as (_ & _ & Hh & _).
  destruct (formatTimeAgo_forms 0 scenarioGetTime
              "1970-01-01T00:00:00.300Z") as (Hnow & _).
  split.
  - destruct Hh as (n & _ & Hn & Hshown);
      [split; [apply Z.leb_le | apply Z.ltb_lt]; reflexivity|].
    rewrite Hshown, Hn. reflexivity.
  - apply Hnow. reflexivity.
Defined.

(** * Further properties of the stream client *)

Section ClientExtras.
Context {JSON App : Type}.
Variable JSON_parse : string → option JSON.
Variable url : string.

Abbreviation Client' := (Client JSON App).

Lemma timer_fires_unfold (c : Client') (t : nat) (tm : Timer) :
  timers c !! t = Some tm → timerState tm = Scheduled →
  clientStep JSON_parse url c (TimerFires t) = timerFires url t c.
Proof. intros Htm Hsched. simpl. rewrite Htm. simpl. by rewrite Hsched. Qed.

Lemma closeCurrent_length (ref : option nat) (srcs : list EventSource) :
  length (closeCurrent ref srcs) = length srcs.
Proof. destruct ref; [apply length_alter | done]. Qed.

(** What one failure and the reconnect that follows leave behind. *)
Lemma failureCycle_reconnects (c : Client') (i : nat) (s : EventSource) :
  tracked c → sources c !! i = Some s → closed s = false →
  let c' := failureCycle JSON_parse url c in
  tracked c'
  ∧ sources c' !! length (sources c)
    = Some {| es_url := url; listeners := dom (handlersRef c); closed := false |}
  ∧ eventSourceRef c' = Some (length (sources c))
  ∧ length (sources c') = S (length (sources c))
  ∧ length (timers c') = S (length (timers c))
  ∧ noneScheduled (timers c')
  ∧ Forall (λ tm, delay tm = 2000%nat) (drop (length (timers c)) (timers c'))
  ∧ handlersRef c' = handlersRef c
  ∧ calls c' = calls c ∧ app c' = app c ∧ mounted c' = mounted c.
Proof.
  intros Htr Hs Hopen c'.
  assert (eventSourceRef c = Some i) as Href by by destruct Htr as [HA _ _ _]; eauto.
  destruct (source_error_schedules JSON_parse url c i s Htr Hs Hopen)
    as (Hfailed & Hclosed & Honly).
  assert (c' = timerFires url (length (timers c)) (onerror i c)) as ->.
  { subst c'. unfold failureCycle. rewrite Href, Hfailed.
    eapply timer_fires_unfold; simpl; [by apply list_lookup_middle|done]. }
  split.
  { rewrite <- (timer_fires_unfold (onerror i c) (length (timers c))
                 {| delay := 2000; timerState := Scheduled |});
      [|simpl; by apply list_lookup_middle|done].
    rewrite <- Hfailed. by do 2 apply clientStep_tracked. }
  rewrite Hfailed in Honly.
  unfold timerFires, connect. simpl.
  rewrite ?length_app, ?closeCurrent_length, ?length_alter, ?length_app. simpl.
  split; [apply list_lookup_middle; by rewrite closeCurrent_length, length_alter|].
  split; [done|]. split; [lia|]. split; [lia|].
  split; [by apply fireTimer_noneScheduled|]. split; [|done].
  rewrite alter_app_r_alt, drop_app_length by lia.
  rewrite Nat.sub_diag. simpl. by constructor.
Qed.

Lemma failureCycle_connected (c : Client') :
  tracked c → connected c →
  tracked (failureCycle JSON_parse url c)
  ∧ connected (failureCycle JSON_parse url c).
Proof.
  intros Htr (i & s & Href & Hs & Hopen).
  destruct (failureCycle_reconnects c i s Htr Hs Hopen)
    as (Htr' & Hnew & Href' & _).
  split; [done|]. by eexists _, _.
Qed.

Lemma cycles_keep_connected (c : Client') (k : nat) :
  tracked c → connected c →
  let c' := Nat.iter k (failureCycle JSON_parse url) c in
  tracked c' ∧ connected c'
  ∧ length (sources c') = (length (sources c) + k)%nat
  ∧ length (timers c') = (length (timers c) + k)%nat
  ∧ noneScheduled (timers c')
  ∧ Forall (λ tm, delay tm = 2000%nat) (drop (length (timers c)) (timers c'))
  ∧ handlersRef c' = handlersRef c ∧ calls c' = calls c ∧ app c' = app c.
Proof.
  intros Htr Hcon. induction k as [|k IH]; simpl.
  - split; [done|]. split; [done|]. rewrite !Nat.add_0_r.
    split; [done|]. split; [done|]. split.
    + destruct Hcon as (i & s & _ & Hs & Hopen).
      destruct Htr as [_ _ HC _]. apply HC. by eexists _, _.
    + rewrite drop_all. by repeat split.
  - destruct IH as (Htr' & Hcon' & Hsrc & Htm & _ & Hdelay & Hh & Hcalls & Happ).
    set (c1 := Nat.iter k (failureCycle JSON_parse url) c) in *.
    destruct Hcon' as (i & s & Href & Hs & Hopen).
    destruct (failureCycle_reconnects c1 i s Htr' Hs Hopen)
      as (Htr2 & Hnew & Href2 & Hsrc2 & Htm2 & Hnone2 & Hdelay2 & Hh2
          & Hcalls2 & Happ2 & _).
    split; [done|]. split; [by eexists _, _|].
    split; [lia|]. split; [lia|]. split; [done|].
    split; [|by rewrite Hh2, Hcalls2, Happ2].
    assert (timers (failureCycle JSON_parse url c1)
            = take (length (timers c1)) (timers (failureCycle JSON_parse url c1))
              ++ drop (length (timers c1)) (timers (failureCycle JSON_parse url c1)))
      as Hsplit by by rewrite take_drop.
    assert (take (length (timers c1)) (timers (failureCycle JSON_parse url c1))
            = timers c1) as Htake.
    { destruct (source_error_schedules JSON_parse url c1 i s Htr' Hs Hopen)
        as (Hfailed & _ & _).
      unfold failureCycle. rewrite Href, Hfailed.
      erewrite timer_fires_unfold; simpl; [|by apply list_lookup_middle|done].
      rewrite alter_app_r_alt by lia.
      by rewrite take_app_length. }
    rewrite Hsplit, Htake, drop_app_le by lia.
    apply Forall_app. split; [done|done].
Qed.

End ClientExtras.

(** X13.  There is no retry cutoff and no backoff.  From any state the
    client can reach with a connection, any number [k] of failures, each
    followed by the firing of the timer it scheduled, leaves the client
    connected again: [k] more sources were opened, [k] more timers were set,
    each with a delay of 2000 ms, none is left scheduled, and the handler
    mapping and the application are untouched. *)
Theorem reconnects_without_limit {JSON App : Type}
    (JSON_parse : string → option JSON) (url : string)
    (handlers : gmap string (EventHandler JSON App)) (a0 : App)
    (actions : list (ClientAction JSON App)) (k : nat) :
  let c := clientRun JSON_parse url (initialClient handlers a0) actions in
  connected c →
  let c' := Nat.iter k (failureCycle JSON_parse url) c in
  connected c'
  ∧ length (sources c') = (length (sources c) + k)%nat
  ∧ length (timers c') = (length (timers c) + k)%nat
  ∧ noneScheduled (timers c')
  ∧ Forall (λ tm, delay tm = 2000%nat) (drop (length (timers c)) (timers c'))
  ∧ handlersRef c' = handlersRef c ∧ calls c' = calls c ∧ app c' = app c.
Proof.
  intros c Hcon c'.
  assert (tracked c) as Htr by apply clientRun_tracked, initialClient_tracked.
  by destruct (cycles_keep_connected JSON_parse url c k Htr Hcon) as (_ & ?).
Qed.

Lemma reconnects_without_limit_witness :
  let c' := Nat.iter 3 (failureCycle sampleParse "/api/events") sampleClient in
  connected c' ∧ length (sources c') = 4%nat ∧ length (timers c') = 3%nat.
Proof.
  intros c'.
  destruct (reconnects_without_limit sampleParse "/api/events" sampleHandlers []
              [EffectRuns true] 3) as (Hcon & Hsrc & Htm & _).
  - by eexists 0%nat, _.
  - split; [exact Hcon|]. split; [exact Hsrc | exact Htm].
Defined.

Section Dispatch.
Context {JSON App : Type}.
Variable JSON_parse : string → option JSON.
Variable url : string.

Abbreviation Client' := (Client JSON App).

Lemma listener_unregistered (eventType data : string) (c : Client') :
  handlersRef c !! eventType = None →
  listener JSON_parse eventType data c = c.
Proof.
  intros Hh. unfold listener, invoke. unfold EventHandler in *. rewrite Hh.
  by destruct (JSON_parse data).
Qed.

(** X14.  Which frames are dispatched.  A frame reaches a handler exactly
    when its source is open, the source has a listener for its type and the
    current mapping has a handler for it.  That handler is then called with
    the parsed value when the payload parses, and this is the only call
    unless the handler throws on it, in which case it is called a second
    time, with the raw payload; when the payload does not parse it is called
    once, with the raw payload.  In every other case the frame is ignored and
    the client is left exactly as it was.  Whether the handler returns or
    throws, a frame never touches the connection: sources, timers and refs
    stay as they are. *)
Theorem frame_dispatch (c : Client') (i : nat) (eventType data : string) :
  let c' := clientStep JSON_parse url c (SourceEvent i eventType data) in
  wiring c' = wiring c
  ∧ (∀ s handler,
       sources c !! i = Some s → closed s = false →
       eventType ∈ listeners s → handlersRef c !! eventType = Some handler →
       match JSON_parse data with
       | Some value =>
           match handler (Decoded value) (app c) with
           | Returns a =>
               calls c' = calls c ++ [(eventType, Decoded value)] ∧ app c' = a
           | Throws a =>
               calls c' = calls c ++ [(eventType, Decoded value);
                                      (eventType, Raw data)]
               ∧ app c' = outcome (handler (Raw data) a)
           end
       | None =>
           calls c' = calls c ++ [(eventType, Raw data)]
           ∧ app c' = outcome (handler (Raw data) (app c))
       end)
  ∧ (dispatchable c i eventType ↔ calls c' ≠ calls c)
  ∧ (¬ dispatchable c i eventType → c' = c).
Proof.
  intros c'.
  assert (wiring c' = wiring c) as Hwiring.
  { subst c'. simpl. destruct (sources c !! i) as [s|]; [|done].
    destruct (closed s); [done|]. case_decide; [|done]. apply listener_wiring. }
  assert (∀ s handler,
            sources c !! i = Some s → closed s = false →
            eventType ∈ listeners s → handlersRef c !! eventType = Some handler →
            c' = listener JSON_parse eventType data c) as Hlistener.
  { intros s handler Hs Hopen Hlistens _. subst c'. simpl.
    rewrite Hs, Hopen. by rewrite decide_True. }
  assert (¬ dispatchable c i eventType → c' = c) as Hignored.
  { intros Hnot. subst c'. simpl.
    destruct (sources c !! i) as [s|] eqn:Hs; [|done].
    destruct (closed s) eqn:Hopen; [done|]. case_decide as Hlistens; [|done].
    destruct (handlersRef c !! eventType) as [handler|] eqn:Hh.
    - destruct Hnot. exists s. rewrite Hh. by eauto.
    - by apply listener_unregistered. }
  split; [done|]. split; [|split; [|done]].
  - intros s handler Hs Hopen Hlistens Hh.
    rewrite (Hlistener s handler Hs Hopen Hlistens Hh).
    apply (listener_registered JSON_parse eventType data c handler Hh).
  - split.
    + intros (s & Hs & Hopen & Hlistens & [handler Hh]).
      rewrite (Hlistener s handler Hs Hopen Hlistens Hh).
      pose proof (listener_registered JSON_parse eventType data c handler Hh)
        as Hl. simpl in Hl. intros Heq. rewrite Heq in Hl.
      assert (∀ more : list (string * Payload JSON),
                more ≠ [] → calls c ≠ calls c ++ more) as Hgrow.
      { intros more Hmore Hc. apply (f_equal length) in Hc.
        rewrite length_app in Hc. destruct more; [done|]. simpl in Hc. lia. }
      destruct (JSON_parse data) as [value|];
        [destruct (handler (Decoded value) (app c))|];
        destruct Hl as [Hl _]; by apply Hgrow in Hl.
    + intros Hcalls.
      destruct (sources c !! i) as [s|] eqn:Hs.
      2: { destruct Hcalls. rewrite Hignored; [done|].
           intros (s & Hs' & _). congruence. }
      destruct (closed s) eqn:Hopen.
      { destruct Hcalls. rewrite Hignored; [done|].
        intros (s' & Hs' & Hopen' & _). congruence. }
      destruct (decide (eventType ∈ listeners s)) as [Hlistens|Hlistens].
      2: { destruct Hcalls. rewrite Hignored; [done|].
           intros (s' & Hs' & _ & Hlistens' & _). congruence. }
      destruct (handlersRef c !! eventType) as [handler|] eqn:Hh.
      * exists s. rewrite Hh. by eauto.
      * destruct Hcalls. rewrite Hignored; [done|].
        intros (s' & _ & _ & _ & Hsome). rewrite Hh in Hsome. by destruct Hsome.
Qed.

(** X15.  The handler mapping can be replaced while the connection is up.
    Replacing it opens no source, sets no timer and calls nothing; and the
    next frame of a type that has a listener is handed to the handler of the
    new mapping: handlers are looked up when the frame is dispatched, not
    when the connection was opened. *)
Theorem handler_swap_takes_effect_at_once (c : Client')
    (handlers : gmap string (EventHandler JSON App)) (i : nat)
    (s : EventSource) (eventType data : string)
    (handler : EventHandler JSON App) :
  sources c !! i = Some s → closed s = false → eventType ∈ listeners s →
  handlers !! eventType = Some handler →
  let swapped := clientStep JSON_parse url c (Render handlers) in
  let c' := clientStep JSON_parse url swapped (SourceEvent i eventType data) in
  sources swapped = sources c ∧ timers swapped = timers c
  ∧ eventSourceRef swapped = eventSourceRef c
  ∧ reconnectTimeout swapped = reconnectTimeout c
  ∧ calls swapped = calls c ∧ app swapped = app c
  ∧ match JSON_parse data with
    | Some value =>
        match handler (Decoded value) (app c) with
        | Returns a =>
            calls c' = calls c ++ [(eventType, Decoded value)] ∧ app c' = a
        | Throws a =>
            calls c' = calls c ++ [(eventType, Decoded value);
                                   (eventType, Raw data)]
            ∧ app c' = outcome (handler (Raw data) a)
        end
    | None =>
        calls c' = calls c ++ [(eventType, Raw data)]
        ∧ app c' = outcome (handler (Raw data) (app c))
    end.
Proof.
  intros Hs Hopen Hlistens Hh swapped c'.
  do 6 (split; [done|]).
  assert (c' = listener JSON_parse eventType data swapped) as ->.
  { subst c' swapped. simpl. rewrite Hs, Hopen. by rewrite decide_True. }
  apply (listener_registered JSON_parse eventType data swapped handler Hh).
Qed.

(** X16.  With [enabled] false the hook does nothing: as long as the effect
    never runs enabled, no source is created, no timer is set and no handler
    is called, whatever else happens. *)
Theorem disabled_client_is_inert
    (handlers : gmap string (EventHandler JSON App)) (a0 : App)
    (actions : list (ClientAction JSON App)) :
  forallb (λ a, negb (startsClient a)) actions = true →
  let c := clientRun JSON_parse url (initialClient handlers a0) actions in
  sources c = [] ∧ timers c = [] ∧ eventSourceRef c = None
  ∧ calls c = [] ∧ app c = a0.
Proof.
  unfold clientRun.
  assert (∀ c : Client',
            sources c = [] ∧ timers c = [] ∧ eventSourceRef c = None
            ∧ mounted c = false ∧ calls c = [] ∧ app c = a0 →
            forallb (λ a, negb (startsClient a)) actions = true →
            let c' := foldl (clientStep JSON_parse url) c actions in
            sources c' = [] ∧ timers c' = [] ∧ eventSourceRef c' = None
            ∧ calls c' = [] ∧ app c' = a0) as Hgen.
  { induction actions as [|a actions IH]; intros c Hc Hall.
    - simpl. by destruct Hc as (? & ? & ? & ? & ? & ?).
    - simpl in Hall. apply andb_true_iff in Hall as [Ha Hall].
      apply negb_true_iff in Ha. simpl. apply IH; [|done].
      destruct Hc as (Hsrc & Htm & Href & Hm & Hcalls & Happ).
      destruct a as [handlers'|enabled| |i eventType data|i|t]; simpl.
      + done.
      + rewrite Hm. by destruct enabled.
      + by rewrite Hm.
      + by rewrite Hsrc.
      + by rewrite Hsrc.
      + by rewrite Htm. }
  intros Hall. by apply Hgen.
Qed.

End Dispatch.

Lemma frame_dispatch_witness :
  calls (clientStep sampleParse "/api/events" sampleClient
           (SourceEvent 0 "inbound_message" "1"))
  = [("inbound_message", Decoded 1%nat)]
  ∧ clientStep sampleParse "/api/events" sampleClient
      (SourceEvent 0 "typing_state" "1") = sampleClient.
Proof.
  destruct (frame_dispatch sampleParse "/api/events" sampleClient 0
              "inbound_message" "1") as (_ & Hcalled & _).
  destruct (frame_dispatch sampleParse "/api/events" sampleClient 0
              "typing_state" "1") as (_ & _ & _ & Hignored).
  split.
  - specialize (Hcalled
      {| es_url := "/api/events"; listeners := dom sampleHandlers;
         closed := false |} recordPayload eq_refl eq_refl).
    destruct Hcalled as [Hcalls _]; [|reflexivity|exact Hcalls].
    cbn [listeners]. unfold sampleHandlers. rewrite dom_singleton_L. set_solver.
  - apply Hignored.
    intros (s & [= <-] & _ & _ & Hh). by destruct Hh.
Defined.

Lemma handler_swap_takes_effect_at_once_witness :
  let swapped := clientStep sampleParse "/api/events" sampleClient
                   (Render {[ "inbound_message" := alwaysThrows ]}) in
  calls (clientStep sampleParse "/api/events" swapped
           (SourceEvent 0 "inbound_message" "1"))
  = [("inbound_message", Decoded 1%nat); ("inbound_message", Raw "1")].
Proof.
  intros swapped.
  destruct (handler_swap_takes_effect_at_once sampleParse "/api/events"
              sampleClient {[ "inbound_message" := alwaysThrows ]} 0
              {| es_url := "/api/events"; listeners := dom sampleHandlers;
                 closed := false |}
              "inbound_message" "1" alwaysThrows)
    as (_ & _ & _ & _ & _ & _ & Hframe);
    [reflexivity | reflexivity | | reflexivity |].
  - cbn [listeners]. unfold sampleHandlers. rewrite dom_singleton_L. set_solver.
  - change (sampleParse "1") with (Some 1%nat) in Hframe.
    change (alwaysThrows (Decoded 1%nat) (app sampleClient))
      with (Throws (App := list (Payload nat)) [Decoded 1%nat]) in Hframe.
    destruct Hframe as [Hcalls _]. exact Hcalls.
Defined.

Lemma disabled_client_is_inert_witness :
  let c := clientRun sampleParse "/api/events" (initialClient sampleHandlers [])
             [EffectRuns false; SourceEvent 0 "inbound_message" "1";
              TimerFires 0; EffectCleanup] in
  sources c = [] ∧ timers c = [] ∧ eventSourceRef c = None
  ∧ calls c = [] ∧ app c = [].
Proof.
  apply (disabled_client_is_inert sampleParse "/api/events" sampleHandlers []
           [EffectRuns false; SourceEvent 0 "inbound_message" "1";
            TimerFires 0; EffectCleanup]).
  reflexivity.
Defined.

(** X17.  In every state the client can reach there is at most one open
    source, and it is the one in [eventSourceRef]; at most one scheduled
    timer, and it is the one in [reconnectTimeout]; never an open source and
    a scheduled timer together; and neither of them once the effect has been
    cleaned up or before it ran. *)
Theorem one_live_connection {JSON App : Type}
    (JSON_parse : string → option JSON) (url : string)
    (handlers : gmap string (EventHandler JSON App)) (a0 : App)
    (actions : list (ClientAction JSON App)) :
  let c := clientRun JSON_parse url (initialClient handlers a0) actions in
  (∀ i j s s',
     sources c !! i = Some s → closed s = false →
     sources c !! j = Some s' → closed s' = false →
     i = j ∧ eventSourceRef c = Some i)
  ∧ (∀ t u tm tm',
       timers c !! t = Some tm → timerState tm = Scheduled →
       timers c !! u = Some tm' → timerState tm' = Scheduled →
       t = u ∧ reconnectTimeout c = Some t)
  ∧ (∀ i s t tm,
       sources c !! i = Some s → closed s = false →
       timers c !! t = Some tm → timerState tm ≠ Scheduled)
  ∧ (mounted c = false → allClosed (sources c) ∧ noneScheduled (timers c)).
Proof.
  intros c.
  assert (tracked c) as [HA HB HC HD]
    by apply clientRun_tracked, initialClient_tracked.
  split; [|split; [|split]].
  - intros i j s s' Hs Hopen Hs' Hopen'.
    pose proof (HA i s Hs Hopen). pose proof (HA j s' Hs' Hopen').
    split; [congruence|done].
  - intros t u tm tm' Htm Hsched Htm' Hsched'.
    pose proof (HB t tm Htm Hsched). pose proof (HB u tm' Htm' Hsched').
    split; [congruence|done].
  - intros i s t tm Hs Hopen Htm. by apply (HC ltac:(by exists i, s) t tm).
  - done.
Qed.

Lemma one_live_connection_witness :
  let c := clientRun sampleParse "/api/events" (initialClient sampleHandlers [])
             [EffectRuns true; SourceError 0; TimerFires 0] in
  eventSourceRef c = Some 1%nat.
Proof.
  intros c.
  destruct (one_live_connection sampleParse "/api/events" sampleHandlers []
              [EffectRuns true; SourceError 0; TimerFires 0])
    as (Hsource & _).
  by destruct (Hsource 1%nat 1%nat
                 {| es_url := "/api/events"; listeners := dom sampleHandlers;
                    closed := false |}
                 {| es_url := "/api/events"; listeners := dom sampleHandlers;
                    closed := false |} eq_refl eq_refl eq_refl eq_refl).
Defined.

(** X18.  The listeners of a connection are those of the mapping at the
    time it was opened.  When the mapping is replaced by one with a further
    event type, frames of that type on the connection that is up are still
    ignored, although a handler for them is there; once the connection has
    failed and been reopened, they reach the handler. *)
Theorem new_event_types_wait_for_reconnect {JSON App : Type}
    (JSON_parse : string → option JSON) (url : string)
    (initial handlers : gmap string (EventHandler JSON App)) (a0 : App)
    (actions : list (ClientAction JSON App)) (i : nat) (s : EventSource)
    (eventType data : string) :
  let c := clientRun JSON_parse url (initialClient initial a0) actions in
  sources c !! i = Some s → closed s = false →
  eventType ∉ listeners s → is_Some (handlers !! eventType) →
  let swapped := clientStep JSON_parse url c (Render handlers) in
  let reconnected := failureCycle JSON_parse url swapped in
  clientStep JSON_parse url swapped (SourceEvent i eventType data) = swapped
  ∧ eventSourceRef reconnected = Some (length (sources c))
  ∧ ∃ again,
      calls (clientStep JSON_parse url reconnected
               (SourceEvent (length (sources c)) eventType data))
      = calls c ++ (eventType, decode JSON_parse data) :: again.
Proof.
  intros c Hs Hopen Hnot [handler Hh] swapped reconnected.
  assert (tracked c) as Htr by apply clientRun_tracked, initialClient_tracked.
  assert (tracked swapped) as Htr'
    by by apply (clientStep_tracked JSON_parse url c (Render handlers)).
  split.
  { subst swapped. simpl. rewrite Hs, Hopen. by rewrite decide_False. }
  destruct (failureCycle_reconnects JSON_parse url swapped i s Htr' Hs Hopen)
    as (_ & Hnew & Href & _ & _ & _ & _ & Hhandlers & Hcalls & _).
  fold reconnected in Hnew, Href, Hhandlers, Hcalls.
  split; [done|].
  change (sources swapped) with (sources c) in Hnew.
  change (handlersRef swapped) with handlers in Hnew, Hhandlers.
  change (calls swapped) with (calls c) in Hcalls.
  simpl. rewrite Hnew. simpl.
  rewrite decide_True by (apply elem_of_dom; by eexists).
  rewrite <- Hcalls.
  apply (listener_calls JSON_parse eventType data reconnected handler).
  by rewrite Hhandlers.
Qed.

Lemma new_event_types_wait_for_reconnect_witness :
  let swapped :=
    clientStep sampleParse "/api/events" sampleClient
      (Render (<[ "typing_state" := recordPayload ]> sampleHandlers)) in
  clientStep sampleParse "/api/events" swapped (SourceEvent 0 "typing_state" "1")
  = swapped.
Proof.
  intros swapped.
  apply (new_event_types_wait_for_reconnect sampleParse "/api/events"
           sampleHandlers (<[ "typing_state" := recordPayload ]> sampleHandlers)
           [] [EffectRuns true] 0
           {| es_url := "/api/events"; listeners := dom sampleHandlers;
              closed := false |} "typing_state" "1");
    [reflexivity | reflexivity | | by eexists].
  cbn [listeners]. unfold sampleHandlers. rewrite dom_singleton_L. set_solver.
Defined.

(** * The REST client *)

Lemma occurs_app (a : Ascii.ascii) (s t : string) :
  occurs a (s +:+ t) = occurs a s || occurs a t.
Proof.
  induction s as [|b s IH]; [done|]. simpl. rewrite IH. by rewrite orb_assoc.
Qed.

Lemma escaped_byte_safe (a : Ascii.ascii) :
  forallb (λ c, negb (occurs c (if unreserved a then String a ""
                                else escapeByte a)))
    queryDelimiters = true.
Proof. destruct a as [[] [] [] [] [] [] [] []]; vm_compute; reflexivity. Qed.

Lemma unescape_byte (a : Ascii.ascii) (rest : string) :
  unescape ((if unreserved a then String a "" else escapeByte a) +:+ rest)
  = String a (unescape rest).
Proof. destruct a as [[] [] [] [] [] [] [] []]; reflexivity. Qed.

Lemma unescape_encode (s : string) : unescape (encodeURIComponent s) = s.
Proof.
  induction s as [|a s IH]; [done|].
  cbn [encodeURIComponent]. by rewrite unescape_byte, IH.
Qed.

Lemma encode_safe (c : Ascii.ascii) (s : string) :
  c ∈ queryDelimiters → occurs c (encodeURIComponent s) = false.
Proof.
  intros Hc. induction s as [|a s IH]; [done|].
  cbn [encodeURIComponent]. rewrite occurs_app, IH, orb_false_r.
  pose proof (escaped_byte_safe a) as Hsafe.
  rewrite forallb_forall in Hsafe.
  apply negb_true_iff, Hsafe. by apply list_elem_of_In.
Qed.

(** Two strings that agree up to the first occurrence of a character agree
    on both sides of it. *)
Lemma split_at_first (c : Ascii.ascii) (x x' r r' : string) :
  occurs c x = false → occurs c x' = false →
  x +:+ String c r = x' +:+ String c r' → x = x' ∧ r = r'.
Proof.
  revert x'. induction x as [|a x IH]; intros [|a' x'] Hx Hx' Heq; simpl in *.
  - by injection Heq as ->.
  - injection Heq as <- _. rewrite bool_decide_eq_true_2 in Hx' by done. done.
  - injection Heq as -> _. rewrite bool_decide_eq_true_2 in Hx by done. done.
  - injection Heq as -> Heq.
    apply orb_false_iff in Hx as [_ Hx]. apply orb_false_iff in Hx' as [_ Hx'].
    destruct (IH x' Hx Hx' Heq) as [-> ->]. done.
Qed.

(** X19.  The path of a history request cannot be bent by the channel id.
    However the id is spelled, its escaped form contains none of the
    characters that delimit a query string, so the path has exactly the two
    parameters [channel_id] and [limit]; the id can be read back from its
    escaped form; and two requests have the same path only when they name
    the same channel and the same limit (20 when the limit is omitted). *)
Theorem channel_id_stays_in_its_parameter (channelId other : string)
    (limit limit' : option nat) :
  (∀ c, c ∈ queryDelimiters → occurs c (encodeURIComponent channelId) = false)
  ∧ unescape (encodeURIComponent channelId) = channelId
  ∧ (channelMessagesPath channelId limit = channelMessagesPath other limit' →
     channelId = other ∧ default 20%nat limit = default 20%nat limit').
Proof.
  split; [intros c; apply encode_safe|]. split; [apply unescape_encode|].
  unfold channelMessagesPath. intros Heq.
  apply String.app_inj in Heq.
  apply (split_at_first "&" _ _ _ _) in Heq as [Henc Hlimit].
  - split.
    + by rewrite <- (unescape_encode channelId), Henc, unescape_encode.
    + apply (String.app_inj "limit=") in Hlimit.
      by apply (inj pretty) in Hlimit.
  - apply encode_safe. by left.
  - apply encode_safe. by left.
Qed.

Lemma channel_id_stays_in_its_parameter_witness :
  channelMessagesPath "a&limit=1" None
  = "/channels/messages?channel_id=a%26limit%3D1&limit=20"
  ∧ "c2" = "c2" ∧ default 20%nat None = default 20%nat (Some 20%nat).
Proof.
  split; [reflexivity|].
  apply (channel_id_stays_in_its_parameter "c2" "c2" None (Some 20%nat)).
  reflexivity.
Defined.

(** X20.  A history request that fails, in whichever way, degrades the
    channel to live data only.  [fetchJson] rejects when [fetch] rejects,
    when the status is outside 200 to 299 (with the message "API error: "
    followed by the status, the body being left unread), or when the body is
    not JSON; in each of these cases the store is left as it is and no later
    action asks for the channel's history again.  When [fetchJson] resolves,
    its rows are merged into the channel's sequence. *)
Theorem failed_fetch_degrades_to_live_only (getTime : string → Z)
    (fetch : string → option (Response MessagesResponse.t))
    (actions : list Action) (req : HistoryRequest) :
  let d := run getTime initialDashboard actions in
  let cid := req_channel req in
  cid ∈ pending d →
  let answer := fetchJson fetch (requestPath req) in
  let answered := historyAnswered getTime fetch req d in
  (fetch (API_BASE +:+ requestPath req) = None → answer = inr NetworkFailure)
  ∧ (∀ r, fetch (API_BASE +:+ requestPath req) = Some r →
          (status r < 200 ∨ 299 < status r)%nat →
          answer = inr (ApiError ("API error: " +:+ pretty (status r))))
  ∧ (∀ r, fetch (API_BASE +:+ requestPath req) = Some r →
          (200 ≤ status r ≤ 299)%nat →
          answer = match body r with
                   | Some data => inl data
                   | None => inr BodyNotJson
                   end)
  ∧ (∀ failure, answer = inr failure →
       liveStates answered = liveStates d
       ∧ ∀ more, requestCount cid (run getTime answered more) = 1%nat)
  ∧ (∀ data, answer = inl data →
       messagesOf (liveStates answered !! cid)
       = mergedMessages (toHistory getTime data)
           (messagesOf (liveStates d !! cid))).
Proof.
  intros d cid Hpend answer answered.
  assert (requestsAccounted d) as Hinv
    by apply run_accounted, initial_accounted.
  destruct (accounted_pending_loaded d cid Hinv Hpend) as [Hl _].
  destruct (Hinv cid) as [Hp Hr]. rewrite Hl in Hr. simpl in Hr.
  pose proof (count_positive cid (pending d) Hpend) as Hpos.
  fold (pendingCount cid d) in Hpos.
  subst answer answered. unfold historyAnswered, fetchJson. fold cid.
  split; [by intros ->|]. split; [|split; [|split]].
  - intros r -> Hst. unfold ok.
    destruct (200 <=? status r)%nat eqn:Hlo; [|done].
    destruct (status r <=? 299)%nat eqn:Hhi; [|done].
    apply Nat.leb_le in Hlo, Hhi. lia.
  - intros r -> [Hlo Hhi]. unfold ok.
    apply Nat.leb_le in Hlo, Hhi. by rewrite Hlo, Hhi.
  - intros failure Hfail.
    assert (match fetch (API_BASE +:+ requestPath req) with
            | Some response =>
                if negb (ok response)
                then inr (ApiError ("API error: " +:+ pretty (status response)))
                else match body response with
                     | Some value => inl value
                     | None => inr BodyNotJson
                     end
            | None => inr NetworkFailure
            end = @inr MessagesResponse.t _ failure) as -> by exact Hfail.
    assert (liveStates (step getTime d (HistoryRejected cid)) = liveStates d)
      as Hsame by (simpl; by rewrite decide_True).
    split; [done|]. intros more.
    rewrite run_requestCount_loaded by by rewrite Hsame.
    rewrite step_requestCount. simpl. lia.
  - intros data Hdata.
    assert (match fetch (API_BASE +:+ requestPath req) with
            | Some response =>
                if negb (ok response)
                then inr (ApiError ("API error: " +:+ pretty (status response)))
                else match body response with
                     | Some value => inl value
                     | None => inr BodyNotJson
                     end
            | None => inr NetworkFailure
            end = @inl _ FetchFailure data) as -> by exact Hdata.
    simpl. rewrite decide_True by done. simpl.
    rewrite mergeHistory_messages, decide_True; [done|].
    split; [done|]. by apply historyLoaded_is_Some.
Qed.

Lemma failed_fetch_degrades_to_live_only_witness :
  let d := run scenarioGetTime initialDashboard
             [ChannelsChanged [channelC2]; InboundMessage inboundC2 arrival400] in
  let unavailable := λ _ : string,
    Some {| status := 503; body := @None MessagesResponse.t |} in
  fetchJson unavailable
    (requestPath {| req_channel := "c2"; req_limit := MAX_MESSAGES |})
  = inr (ApiError "API error: 503")
  ∧ liveStates (historyAnswered scenarioGetTime unavailable
                  {| req_channel := "c2"; req_limit := MAX_MESSAGES |} d)
    = liveStates d.
Proof.
  intros d unavailable.
  destruct (failed_fetch_degrades_to_live_only scenarioGetTime unavailable
              [ChannelsChanged [channelC2]; InboundMessage inboundC2 arrival400]
              {| req_channel := "c2"; req_limit := MAX_MESSAGES |})
    as (_ & Hstatus & _ & Hfailed & _); [cbn; left|].
  split.
  - apply (Hstatus {| status := 503; body := None |}); [reflexivity|].
    right. simpl. lia.
  - by destruct (Hfailed (ApiError "API error: 503") eq_refl) as [Hsame _].
Defined.

(** * The life of a live state *)

Lemma loadHistory_is_Some (channel : ChannelInfo.t) (prev : LiveStates)
    (k : string) :
  is_Some (prev !! k) → is_Some ((loadHistory channel prev).1 !! k).
Proof.
  intros Hk. destruct (decide (ChannelInfo.id channel = k)) as [<-|Hne].
  - rewrite loadHistory_lookup. by destruct (historyLoadedOf _).
  - by rewrite loadHistory_lookup_ne.
Qed.

Lemma historyEffect_is_Some (channels : list ChannelInfo.t) (d : Dashboard)
    (k : string) :
  is_Some (liveStates d !! k) →
  is_Some (liveStates (historyEffect channels d) !! k).
Proof.
  unfold historyEffect. revert d.
  induction channels as [|channel channels IH]; intros d Hk; [done|].
  cbn [foldl]. apply IH. rewrite effectStep_liveStates.
  by apply loadHistory_is_Some.
Qed.

(** X21.  A live state is created the first time its channel is seen and is
    never discarded.  A step keeps every entry of the store.  After a
    message or typing event the event's channel has an entry, whether or not
    it was known before; after the history effect every channel of the list
    has one, with its marker set. *)
Theorem live_state_created_and_kept (getTime : string → Z) (d : Dashboard)
    (a : Action) :
  let after := liveStates (step getTime d a) in
  (∀ k, is_Some (liveStates d !! k) → is_Some (after !! k))
  ∧ (∀ c, eventChannel a = Some c → is_Some (after !! c))
  ∧ (∀ channels channel,
       a = ChannelsChanged channels → channel ∈ channels →
       is_Some (after !! ChannelInfo.id channel)
       ∧ historyLoadedOf (after !! ChannelInfo.id channel) = true).
Proof.
  intros after. subst after. split; [|split].
  - intros k Hk.
    destruct a as [channels|event env|event env|event|c data|c]; simpl.
    + by apply historyEffect_is_Some.
    + unfold handleInboundMessage, pushMessage.
      apply lookup_insert_is_Some'. by right.
    + unfold handleOutboundMessage, clearTyping, pushMessage.
      apply lookup_insert_is_Some'. right. apply lookup_insert_is_Some'. by right.
    + unfold handleTypingState. apply lookup_insert_is_Some'. by right.
    + case_decide; [|done]. simpl. unfold mergeHistory.
      destruct (liveStates d !! c); [|done].
      apply lookup_insert_is_Some'. by right.
    + by case_decide.
  - intros c Hc. destruct (step_event_insert getTime a c Hc) as [f Hf].
    rewrite Hf. simpl. rewrite lookup_insert_eq. by eexists.
  - intros channels channel -> Hin. simpl.
    assert (historyLoadedOf
              (liveStates (historyEffect channels d) !! ChannelInfo.id channel)
            = true) as Hl.
    { rewrite historyEffect_historyLoaded.
      rewrite bool_decide_eq_true_2; [apply orb_true_r|].
      by apply list_elem_of_fmap_2. }
    split; [by apply historyLoaded_is_Some | done].
Qed.

Lemma live_state_created_and_kept_witness :
  is_Some (liveStates (step scenarioGetTime initialDashboard
                         (TypingState (typingC2 true))) !! "c2")
  ∧ historyLoadedOf
      (liveStates (step scenarioGetTime initialDashboard
                     (ChannelsChanged [channelC1; channelC2])) !! "c2") = true.
Proof.
  destruct (live_state_created_and_kept scenarioGetTime initialDashboard
              (TypingState (typingC2 true))) as (_ & Hevent & _).
  destruct (live_state_created_and_kept scenarioGetTime initialDashboard
              (ChannelsChanged [channelC1; channelC2])) as (_ & _ & Heffect).
  split; [by apply Hevent|].
  apply (Heffect [channelC1; channelC2] channelC2 eq_refl).
  right. left.
Defined.
